(** * Collateral optimisation: the LP handed to PuLP and the extracted result

    A shallow embedding of [run] from [main.py].  The function reads a
    JSON-like document, builds one linear program with PuLP, asks a solver
    for a solution and turns the outcome into a result document.

    Modelling choices:
    - Python numbers are exact rationals ([Qc]); rounding of binary floating
      point is not modelled.  [float('inf')] only ever occurs as the
      right-hand side of a constraint, so right-hand sides live in [bound].
    - A JSON object is a record whose fields are optional: [None] is a key
      that is absent, and reading it with [entry["key"]] raises [KeyError].
    - Identifiers are strings.
    - Python dictionaries are [gmap]s; [d[k] = v] is insertion, so a later
      write to the same key replaces the earlier one.
    - The solver is an argument: a function from the problem to either an
      exception or a status together with the values of the variables.

    PuLP is a library, not part of this program, but [run] behaves as PuLP
    makes it behave.  What [run] meets of PuLP is modelled as follows.
    - An affine expression is the list of its terms, in the order in which
      they are added.  Multiplying by the number 0 gives the expression
      without terms.  [lpSum] adds up the coefficients of a variable that
      occurs twice; here it is concatenation, because a variable can only
      occur twice when an id is repeated, and then the construction raises
      before the problem is used.
    - [prob += constraint, name] raises [PulpError] when the name, with
      PuLP's illegal characters replaced, is already taken.  The model
      keeps the name as [run] passes it.
    - Releases of PuLP differ on a bound of [float('inf')]: some raise
      [PulpError] when the constraint is formed, others build it.  The
      release is a parameter, [PuLP.t].
    - [prob.solve] leaves an objective that has no terms with a term on
      PuLP's own variable [__dummy], which never gets a value. *)

From stdpp Require Import gmap strings list fin_maps numbers.
From Stdlib Require Import Ascii QArith Qcanon.

(** ** Exceptions and the error monad *)

Inductive exn : Type :=
| KeyError (key : string)
| PulpError (msg : string)
| PulpSolverError (msg : string).
Inductive result (A : Type) : Type :=
| Ok (a : A)
| Raise (e : exn).
Arguments Ok {A} a.
Arguments Raise {A} e.

Global Instance result_ret : MRet result := fun A a => Ok a.

Global Instance result_bind : MBind result := fun A B k m =>
  match m with
  | Ok a => k a
  | Raise e => Raise e
  end.

(** A list comprehension whose body may raise. *)
Fixpoint mapM {A B} (f : A -> result B) (l : list A) : result (list B) :=
  match l with
  | [] => Ok []
  | x :: l' => y ← f x; ys ← mapM f l'; Ok (y :: ys)
  end.

(** A [for] loop that updates a state and may raise. *)
Fixpoint foldM {A S} (f : S -> A -> result S) (s : S) (l : list A) : result S :=
  match l with
  | [] => Ok s
  | x :: l' => s' ← f s x; foldM f s' l'
  end.

(** [d["key"]] on a JSON object. *)
Definition getitem {A} (key : string) (field : option A) : result A :=
  match field with
  | Some v => Ok v
  | None => Raise (KeyError key)
  end.

(** [d[k]] on a dictionary keyed by identifiers. *)
Definition dict_getitem {V} (d : gmap string V) (k : string) : result V :=
  match d !! k with
  | Some v => Ok v
  | None => Raise (KeyError k)
  end.

(** [d.get(k, dflt)]. *)
Definition dict_get {K V} `{Countable K} (d : gmap K V) (k : K) (dflt : V) : V :=
  default dflt (d !! k).

(** [{key(x): val(x) for x in l}]: the key is evaluated before the value. *)
Definition dict_comp {A K V} `{Countable K}
    (key : A -> result K) (val : A -> result V) (l : list A) : result (gmap K V) :=
  foldM (fun d x => k ← key x; v ← val x; Ok (<[k := v]> d)) ∅ l.

(** ** Input document *)

Module Asset.
Record t : Type := mk {
  asset_id : option string;
  available_quantity : option Qc;
  market_value : option Qc;
  tier_rating : option Qc }.
End Asset.

Module Account.
Record t : Type := mk {
  account_id : option string;
  collateral_requirement : option Qc }.
End Account.

Module HaircutEntry.
Record t : Type := mk {
  asset_id : option string;
  account_id : option string;
  haircut : option Qc }.
End HaircutEntry.

Module LimitEntry.
Record t : Type := mk {
  asset_id : option string;
  account_id : option string;
  max_allocation : option Qc }.
End LimitEntry.

Module Input.
Record t : Type := mk {
  assets : option (list Asset.t);
  accounts : option (list Account.t);
  haircut_matrix : option (list HaircutEntry.t);
  limit_matrix : option (list LimitEntry.t) }.
End Input.

(** [input_data.get(key, [])]. *)
Definition get_list {A} (field : option (list A)) : list A := default [] field.

(** ** Parsed tables *)

Module Env.
Record t : Type := mk {
  I : list string;
  Q_i : gmap string Qc;
  V_i : gmap string Qc;
  omega_i : gmap string Qc;
  J : list string;
  C_j : gmap string Qc;
  H_ij : gmap (string * string) Qc;
  L_ij : gmap (string * string) Qc }.
End Env.

Definition haircut_step (H_ij : gmap (string * string) Qc) (entry : HaircutEntry.t)
    : result (gmap (string * string) Qc) :=
  asset_id ← getitem "asset_id" (HaircutEntry.asset_id entry);
  account_id ← getitem "account_id" (HaircutEntry.account_id entry);
  haircut ← getitem "haircut" (HaircutEntry.haircut entry);
  Ok (<[(asset_id, account_id) := haircut]> H_ij).

Definition limit_step (L_ij : gmap (string * string) Qc) (entry : LimitEntry.t)
    : result (gmap (string * string) Qc) :=
  asset_id ← getitem "asset_id" (LimitEntry.asset_id entry);
  account_id ← getitem "account_id" (LimitEntry.account_id entry);
  max_allocation ← getitem "max_allocation" (LimitEntry.max_allocation entry);
  Ok (<[(asset_id, account_id) := max_allocation]> L_ij).

(** Lines 27-55 of [run]. *)
Definition parse (input_data : Input.t) : result Env.t :=
  let assets := get_list (Input.assets input_data) in
  I ← mapM (fun asset => getitem "asset_id" (Asset.asset_id asset)) assets;
  Q_i ← dict_comp (fun asset => getitem "asset_id" (Asset.asset_id asset))
                   (fun asset => getitem "available_quantity" (Asset.available_quantity asset))
                   assets;
  V_i ← dict_comp (fun asset => getitem "asset_id" (Asset.asset_id asset))
                   (fun asset => getitem "market_value" (Asset.market_value asset))
                   assets;
  omega_i ← dict_comp (fun asset => getitem "asset_id" (Asset.asset_id asset))
                       (fun asset => getitem "tier_rating" (Asset.tier_rating asset))
                       assets;
  let accounts := get_list (Input.accounts input_data) in
  J ← mapM (fun account => getitem "account_id" (Account.account_id account)) accounts;
  C_j ← dict_comp (fun account => getitem "account_id" (Account.account_id account))
                   (fun account => getitem "collateral_requirement"
                                     (Account.collateral_requirement account))
                   accounts;
  let haircut_matrix_data := get_list (Input.haircut_matrix input_data) in
  H_ij ← foldM haircut_step ∅ haircut_matrix_data;
  let limit_matrix_data := get_list (Input.limit_matrix input_data) in
  L_ij ← foldM limit_step ∅ limit_matrix_data;
  Ok (Env.mk I Q_i V_i omega_i J C_j H_ij L_ij).


(** ** The PuLP model *)

(** How a release of PuLP treats the constraint [expression <=
    float('inf')]: it raises [PulpError] with some message, or it builds
    the constraint. *)
Module PuLP.
Inductive t : Type :=
| RefusesInfinity (msg : string)
| AcceptsInfinity.
End PuLP.

Inductive LpCategory : Type := LpContinuous | LpInteger | LpBinary.

(** A decision variable, identified by the index it was created for. *)
Record LpVariable : Type := mkLpVariable {
  index : string * string;
  lowBound : option Qc;
  upBound : option Qc;
  cat : LpCategory }.

(** The terms [coefficient * variable] of an expression, in the order in
    which they were added. *)
Definition LpAffineExpression : Type := list (LpVariable * Qc).

(** A variable used as an expression. *)
Definition var_expr (v : LpVariable) : LpAffineExpression := [(v, 1%Qc)].

(** [expression * number], and [number * expression]: every coefficient is
    multiplied by the number, unless the number is 0, which gives the
    expression without terms. *)
Definition expr_times (e : LpAffineExpression) (c : Qc) : LpAffineExpression :=
  if decide (c = 0%Qc) then [] else map (fun t => (t.1, (c * t.2)%Qc)) e.

(** [lpSum(expressions)]. *)
Definition lpSum (es : list LpAffineExpression) : LpAffineExpression := concat es.

Inductive LpConstraintSense : Type := LpConstraintLE | LpConstraintGE | LpConstraintEQ.

(** A right-hand side: a number or [float('inf')]. *)
Inductive bound : Type :=
| Finite (q : Qc)
| PlusInf.

(** A constraint under the tag [run] gives it. *)
Record LpConstraint : Type := mkLpConstraint {
  cname : string;
  expr : LpAffineExpression;
  csense : LpConstraintSense;
  rhs : bound }.

Inductive LpSense : Type := LpMinimize | LpMaximize.

Record LpProblem : Type := mkLpProblem {
  pname : string;
  psense : LpSense;
  objective : LpAffineExpression;
  constraints : list LpConstraint }.

(** [LpProblem(name, sense)]: nothing to optimise, nothing to satisfy. *)
Definition new_problem (name : string) (sense : LpSense) : LpProblem :=
  mkLpProblem name sense [] [].

(** [prob += expression, name]. *)
Definition set_objective (prob : LpProblem) (e : LpAffineExpression) : LpProblem :=
  mkLpProblem (pname prob) (psense prob) e (constraints prob).

(** The characters PuLP does not keep in a name. *)
Definition illegal_chars : list Ascii.ascii :=
  String.list_ascii_of_string "-+[] ->/".

Definition translate_char (c : Ascii.ascii) : Ascii.ascii :=
  if decide (c ∈ illegal_chars) then "_"%char else c.

(** The name PuLP stores: each illegal character becomes an underscore. *)
Fixpoint translate (s : string) : string :=
  match s with
  | EmptyString => EmptyString
  | String c s' => String (translate_char c) (translate s')
  end.

(** The names the problem holds its constraints under. *)
Definition stored_names (prob : LpProblem) : list string :=
  map (fun c => translate (cname c)) (constraints prob).

(** [prob += constraint, name]: refused when the stored name is taken. *)
Definition add_constraint (prob : LpProblem) (c : LpConstraint) : result LpProblem :=
  if decide (translate (cname c) ∈ stored_names prob)
  then Raise (PulpError ("overlapping constraint names: " +:+ translate (cname c)))
  else Ok (mkLpProblem (pname prob) (psense prob) (objective prob)
             (constraints prob ++ [c])).

(** [[(i, j) for i in I for j in J]]. *)
Definition pairs (I J : list string) : list (string * string) :=
  i ← I; j ← J; [(i, j)].

(** [LpVariable.dicts(name, indices, lowBound=0, cat=LpContinuous)]. *)
Definition LpVariable_dicts (indices : list (string * string))
    (lowBound : option Qc) (cat : LpCategory) : gmap (string * string) LpVariable :=
  foldl (fun d ix => <[ix := mkLpVariable ix lowBound None cat]> d) ∅ indices.

Definition var_getitem (Q_vars : gmap (string * string) LpVariable) (ix : string * string)
    : result LpVariable :=
  match Q_vars !! ix with
  | Some v => Ok v
  | None => Raise (KeyError ("(" +:+ ix.1 +:+ ", " +:+ ix.2 +:+ ")"))
  end.

(** [expression <= L_ij.get((i, j), float('inf'))]. *)
Definition le_limit (pulp : PuLP.t) (name : string) (e : LpAffineExpression)
    (limit : option Qc) : result LpConstraint :=
  match limit with
  | Some max_allocation =>
      Ok (mkLpConstraint name e LpConstraintLE (Finite max_allocation))
  | None =>
      match pulp with
      | PuLP.RefusesInfinity msg => Raise (PulpError msg)
      | PuLP.AcceptsInfinity => Ok (mkLpConstraint name e LpConstraintLE PlusInf)
      end
  end.

Section Build.
Variable pulp : PuLP.t.
Variable env : Env.t.
Variable Q_vars : gmap (string * string) LpVariable.

(** Line 71: the objective. *)
Definition objective_terms : result LpAffineExpression :=
  es ← mapM (fun '(i, j) =>
               w ← dict_getitem (Env.omega_i env) i;
               q ← var_getitem Q_vars (i, j);
               v ← dict_getitem (Env.V_i env) i;
               Ok (expr_times (expr_times (expr_times (var_expr q) w) v)
                              (dict_get (Env.H_ij env) (i, j) 1%Qc)))
            (pairs (Env.I env) (Env.J env));
  Ok (lpSum es).

(** Line 77: the requirement of account [j]. *)
Definition collateral_requirement (j : string) : result LpConstraint :=
  es ← mapM (fun i =>
               q ← var_getitem Q_vars (i, j);
               v ← dict_getitem (Env.V_i env) i;
               Ok (expr_times (expr_times (var_expr q) v)
                              (dict_get (Env.H_ij env) (i, j) 1%Qc)))
            (Env.I env);
  c ← dict_getitem (Env.C_j env) j;
  Ok (mkLpConstraint ("Collateral_Requirement_Account_" +:+ j) (lpSum es)
        LpConstraintGE (Finite c)).

(** Line 81: the inventory of asset [i]. *)
Definition asset_quantity_limit (i : string) : result LpConstraint :=
  es ← mapM (fun j => q ← var_getitem Q_vars (i, j); Ok (var_expr q)) (Env.J env);
  a ← dict_getitem (Env.Q_i env) i;
  Ok (mkLpConstraint ("Asset_Quantity_Limit_Asset_" +:+ i) (lpSum es)
        LpConstraintLE (Finite a)).

(** Line 86: the cap of the pair [(i, j)]. *)
Definition allocation_limit (i j : string) : result LpConstraint :=
  q ← var_getitem Q_vars (i, j);
  v ← dict_getitem (Env.V_i env) i;
  le_limit pulp ("Allocation_Limit_Asset_" +:+ i +:+ "_Account_" +:+ j)
           (expr_times (var_expr q) v) (Env.L_ij env !! (i, j)).

(** Lines 75-86. *)
Definition build_constraints (prob : LpProblem) : result LpProblem :=
  prob ← foldM (fun prob j => c ← collateral_requirement j; add_constraint prob c)
               prob (Env.J env);
  prob ← foldM (fun prob i => c ← asset_quantity_limit i; add_constraint prob c)
               prob (Env.I env);
  foldM (fun prob i =>
           foldM (fun prob j => c ← allocation_limit i j; add_constraint prob c)
                 prob (Env.J env))
        prob (Env.I env).
End Build.

(** Lines 62-86. *)
Definition build_model (pulp : PuLP.t) (env : Env.t)
    : result (gmap (string * string) LpVariable * LpProblem) :=
  let prob := new_problem "Collateral_Optimization" LpMinimize in
  let Q_vars := LpVariable_dicts (pairs (Env.I env) (Env.J env)) (Some 0%Qc) LpContinuous in
  e ← objective_terms env Q_vars;
  let prob := set_objective prob e in
  prob ← build_constraints pulp env Q_vars prob;
  Ok (Q_vars, prob).

(** ** The solver *)

Inductive LpStatus : Type :=
| LpStatusNotSolved
| LpStatusOptimal
| LpStatusInfeasible
| LpStatusUnbounded
| LpStatusUndefined.

Global Instance LpStatus_eq_dec : EqDecision LpStatus.
Proof. solve_decision. Defined.

(** What [prob.solve(solver)] leaves behind: the status of the problem and
    the [varValue] of the variables ([None] where none was assigned). *)
Record Solution : Type := mkSolution {
  status : LpStatus;
  varValue : gmap (string * string) Qc }.

Definition Solver : Type := LpProblem -> result Solution.

Record SolverParams : Type := mkSolverParams { solver : option Solver }.

(** [value(expression)]: [None] as soon as a variable has no value. *)
Fixpoint value_from (sol : Solution) (s : Qc) (e : LpAffineExpression) : option Qc :=
  match e with
  | [] => Some s
  | (v, x) :: e' =>
      match varValue sol !! index v with
      | None => None
      | Some q => value_from sol (s + q * x)%Qc e'
      end
  end.

Definition value (sol : Solution) (e : LpAffineExpression) : option Qc :=
  value_from sol 0%Qc e.

(** [value(prob.objective)] once [prob.solve] has run.  To an objective
    without terms [prob.solve] adds PuLP's variable [__dummy] and then
    subtracts it again, which leaves the term [0 * __dummy]; no solver
    value is ever assigned to [__dummy], so the value is [None]. *)
Definition value_after_solve (sol : Solution) (e : LpAffineExpression) : option Qc :=
  match e with
  | [] => None
  | _ :: _ => value sol e
  end.

(** ** The result document *)

Module Allocation.
Record t : Type := mk {
  asset_id : string;
  account_id : string;
  allocation_fraction : option Qc }.
End Allocation.

Module Output.
Record t : Type := mk {
  allocation_matrix : list Allocation.t;
  total_collateral_cost : option Qc;
  status : option string }.
End Output.

(** Lines 108-116. *)
Definition extract_allocation (env : Env.t) (Q_vars : gmap (string * string) LpVariable)
    (sol : Solution) : result (list Allocation.t) :=
  foldM (fun allocation_matrix i =>
           foldM (fun allocation_matrix j =>
                    q ← var_getitem Q_vars (i, j);
                    let allocation_fraction := varValue sol !! index q in
                    Ok (allocation_matrix ++ [Allocation.mk i j allocation_fraction]))
                 allocation_matrix (Env.J env))
        [] (Env.I env).

Section Run.
(** The release of PuLP in use. *)
Variable pulp : PuLP.t.
(** The solver used when [solver_params] names none. *)
Variable PULP_CBC_CMD : Solver.

Definition run (input_data : Input.t) (solver_params : option SolverParams)
    : result Output.t :=
  let solver_params := default (mkSolverParams None) solver_params in
  env ← parse input_data;
  '(Q_vars, prob) ← build_model pulp env;
  let solver := default PULP_CBC_CMD (solver solver_params) in
  sol ← solver prob;
  if decide (status sol ≠ LpStatusOptimal) then
    Ok (Output.mk [] None (Some "No optimal solution found."))
  else
    allocation_matrix ← extract_allocation env Q_vars sol;
    let total_collateral_cost := value_after_solve sol (objective prob) in
    Ok (Output.mk allocation_matrix total_collateral_cost None).
End Run.

(** ** The model in closed form *)

(** Every id the parser lists has a row in every table read for it. *)
Definition tables_cover (env : Env.t) : Prop :=
  (forall i, i ∈ Env.I env ->
     is_Some (Env.Q_i env !! i) /\ is_Some (Env.V_i env !! i) /\
     is_Some (Env.omega_i env !! i)) /\
  (forall j, j ∈ Env.J env -> is_Some (Env.C_j env !! j)).

(** The variable [LpVariable.dicts] creates for the index [ix]. *)
Definition Qvar (ix : string * string) : LpVariable :=
  mkLpVariable ix (Some 0%Qc) None LpContinuous.

Section ClosedFormDefs.
Variable env : Env.t.

(** Readings of the tables.  The first four are only ever used at ids the
    tables cover, where the fallback plays no part. *)
Definition tier_rating (i : string) : Qc := dict_get (Env.omega_i env) i 0%Qc.
Definition market_value (i : string) : Qc := dict_get (Env.V_i env) i 0%Qc.
Definition available_quantity (i : string) : Qc := dict_get (Env.Q_i env) i 0%Qc.
Definition requirement (j : string) : Qc := dict_get (Env.C_j env) j 0%Qc.
(** [H_ij.get((i, j), 1)] and [L_ij.get((i, j), float('inf'))]. *)
Definition haircut (i j : string) : Qc := dict_get (Env.H_ij env) (i, j) 1%Qc.
Definition limit (i j : string) : bound :=
  default PlusInf (Finite <$> Env.L_ij env !! (i, j)).

(** What the pair [(i, j)] adds to the objective: the term
    [tier_rating[i] * market_value[i] * haircut(i,j) * Q[i,j]], or nothing
    when one of the three factors is 0. *)
Definition objective_term (ix : string * string) : LpAffineExpression :=
  if decide (tier_rating ix.1 = 0%Qc \/ market_value ix.1 = 0%Qc
             \/ haircut ix.1 ix.2 = 0%Qc)
  then []
  else [(Qvar ix, (tier_rating ix.1 * market_value ix.1 * haircut ix.1 ix.2)%Qc)].

Definition objective_row : LpAffineExpression :=
  flat_map objective_term (pairs (Env.I env) (Env.J env)).

(** What asset [i] adds to the requirement of account [j]. *)
Definition requirement_term (j i : string) : LpAffineExpression :=
  if decide (market_value i = 0%Qc \/ haircut i j = 0%Qc)
  then []
  else [(Qvar (i, j), (market_value i * haircut i j)%Qc)].

Definition collateral_row (j : string) : LpConstraint :=
  mkLpConstraint ("Collateral_Requirement_Account_" +:+ j)
    (flat_map (requirement_term j) (Env.I env))
    LpConstraintGE (Finite (requirement j)).

Definition inventory_row (i : string) : LpConstraint :=
  mkLpConstraint ("Asset_Quantity_Limit_Asset_" +:+ i)
    (map (fun j => (Qvar (i, j), 1%Qc)) (Env.J env))
    LpConstraintLE (Finite (available_quantity i)).

(** The left-hand side of a cap: [market_value[i] * Q[i,j]], or nothing
    when the value is 0. *)
Definition cap_term (ix : string * string) : LpAffineExpression :=
  if decide (market_value ix.1 = 0%Qc) then [] else [(Qvar ix, market_value ix.1)].

Definition cap_row (ix : string * string) : LpConstraint :=
  mkLpConstraint ("Allocation_Limit_Asset_" +:+ ix.1 +:+ "_Account_" +:+ ix.2)
    (cap_term ix) LpConstraintLE (limit ix.1 ix.2).

Definition Q_vars_of : gmap (string * string) LpVariable :=
  LpVariable_dicts (pairs (Env.I env) (Env.J env)) (Some 0%Qc) LpContinuous.

Definition model_of : LpProblem :=
  mkLpProblem "Collateral_Optimization" LpMinimize objective_row
    (map collateral_row (Env.J env) ++ map inventory_row (Env.I env)
     ++ map cap_row (pairs (Env.I env) (Env.J env))).
End ClosedFormDefs.

(** The three families of constraints, told apart by their tags. *)
Definition is_collateral_requirement (c : LpConstraint) : bool :=
  String.prefix "Collateral_Requirement_Account_" (cname c).

Definition is_asset_quantity_limit (c : LpConstraint) : bool :=
  String.prefix "Asset_Quantity_Limit_Asset_" (cname c).

Definition is_allocation_limit (c : LpConstraint) : bool :=
  String.prefix "Allocation_Limit_Asset_" (cname c).

(** ** What [run] hands to the solver, and what it makes of the answer *)

(** Lines 27-86: the problem [prob.solve] is called on. *)
Definition build_lp (pulp : PuLP.t) (input_data : Input.t) : result LpProblem :=
  env ← parse input_data;
  '(Q_vars, prob) ← build_model pulp env;
  Ok prob.

(** Line 91: [solver_params.get("solver", PULP_CBC_CMD())]. *)
Definition chosen_solver (PULP_CBC_CMD : Solver) (solver_params : option SolverParams)
    : Solver :=
  default PULP_CBC_CMD (solver (default (mkSolverParams None) solver_params)).

(** The result returned on every status other than optimal. *)
Definition no_optimal_solution : Output.t :=
  Output.mk [] None (Some "No optimal solution found.").

(** The allocation matrix in closed form: the solver's value for each pair. *)
Definition allocation_rows (env : Env.t) (sol : Solution) : list Allocation.t :=
  map (fun ix => Allocation.mk ix.1 ix.2 (varValue sol !! ix))
      (pairs (Env.I env) (Env.J env)).

(** The cost recomputed from an allocation matrix alone:
    the sum of [tier_rating[i] * Q[i,j] * market_value[i] * haircut(i,j)]
    over its entries, undefined when an entry carries no quantity. *)
Fixpoint recompute_from (env : Env.t) (s : Qc) (m : list Allocation.t) : option Qc :=
  match m with
  | [] => Some s
  | a :: m' =>
      match Allocation.allocation_fraction a with
      | None => None
      | Some q =>
          let i := Allocation.asset_id a in
          let j := Allocation.account_id a in
          recompute_from env
            (s + tier_rating env i * q * market_value env i * haircut env i j)%Qc m'
      end
  end.

Definition recompute_cost (env : Env.t) (m : list Allocation.t) : option Qc :=
  recompute_from env 0%Qc m.

(** ** Entries with all their fields *)

Definition present {A} (field : option A) : bool :=
  match field with Some _ => true | None => false end.

Definition asset_ok (a : Asset.t) : bool :=
  present (Asset.asset_id a) && present (Asset.available_quantity a)
  && present (Asset.market_value a) && present (Asset.tier_rating a).

Definition account_ok (a : Account.t) : bool :=
  present (Account.account_id a) && present (Account.collateral_requirement a).

Definition haircut_ok (e : HaircutEntry.t) : bool :=
  present (HaircutEntry.asset_id e) && present (HaircutEntry.account_id e)
  && present (HaircutEntry.haircut e).

Definition limit_ok (e : LimitEntry.t) : bool :=
  present (LimitEntry.asset_id e) && present (LimitEntry.account_id e)
  && present (LimitEntry.max_allocation e).

Definition well_formed (input_data : Input.t) : bool :=
  forallb asset_ok (get_list (Input.assets input_data))
  && forallb account_ok (get_list (Input.accounts input_data))
  && forallb haircut_ok (get_list (Input.haircut_matrix input_data))
  && forallb limit_ok (get_list (Input.limit_matrix input_data)).

Definition missing {A} (key : string) (field : option A) : list string :=
  match field with Some _ => [] | None => [key] end.

Definition asset_missing (a : Asset.t) : list string :=
  missing "asset_id" (Asset.asset_id a)
  ++ missing "available_quantity" (Asset.available_quantity a)
  ++ missing "market_value" (Asset.market_value a)
  ++ missing "tier_rating" (Asset.tier_rating a).

Definition account_missing (a : Account.t) : list string :=
  missing "account_id" (Account.account_id a)
  ++ missing "collateral_requirement" (Account.collateral_requirement a).

Definition haircut_missing (e : HaircutEntry.t) : list string :=
  missing "asset_id" (HaircutEntry.asset_id e)
  ++ missing "account_id" (HaircutEntry.account_id e)
  ++ missing "haircut" (HaircutEntry.haircut e).

Definition limit_missing (e : LimitEntry.t) : list string :=
  missing "asset_id" (LimitEntry.asset_id e)
  ++ missing "account_id" (LimitEntry.account_id e)
  ++ missing "max_allocation" (LimitEntry.max_allocation e).

(** The names of the fields that some entry of the input lacks. *)
Definition missing_keys (input_data : Input.t) : list string :=
  flat_map asset_missing (get_list (Input.assets input_data))
  ++ flat_map account_missing (get_list (Input.accounts input_data))
  ++ flat_map haircut_missing (get_list (Input.haircut_matrix input_data))
  ++ flat_map limit_missing (get_list (Input.limit_matrix input_data)).

(** The key an entry of a sparse table is stored under. *)
Definition haircut_key (e : HaircutEntry.t) : option (string * string) :=
  i ← HaircutEntry.asset_id e; j ← HaircutEntry.account_id e; Some (i, j).

Definition limit_key (e : LimitEntry.t) : option (string * string) :=
  i ← LimitEntry.asset_id e; j ← LimitEntry.account_id e; Some (i, j).

Definition with_haircut_matrix (input_data : Input.t) (l : list HaircutEntry.t) : Input.t :=
  Input.mk (Input.assets input_data) (Input.accounts input_data) (Some l)
           (Input.limit_matrix input_data).


(** ** Sample inputs and solvers *)

Definition qz (z : Z) : Qc := Q2Qc (inject_Z z).

(** A release of PuLP that refuses an infinite bound. *)
Definition strict : PuLP.t := PuLP.RefusesInfinity "Cannot add/subtract NaN/inf values".

Definition asset_A1 (quantity : Z) : Asset.t :=
  Asset.mk (Some "A1") (Some (qz quantity)) (Some (qz 1)) (Some (qz 1)).

Definition account_Acc1 : Account.t := Account.mk (Some "Acc1") (Some (qz 50)).

Definition limit_A1_Acc1 : LimitEntry.t :=
  LimitEntry.mk (Some "A1") (Some "Acc1") (Some (qz 1000)).

(** One asset of 100 units, one account requiring 50; no haircuts, no limits. *)
Definition scenario_A : Input.t :=
  Input.mk (Some [asset_A1 100]) (Some [account_Acc1]) None None.

(** Scenario A with a limit of 1000 for its one pair. *)
Definition capped_A : Input.t :=
  Input.mk (Some [asset_A1 100]) (Some [account_Acc1]) None (Some [limit_A1_Acc1]).

(** An account but no asset. *)
Definition no_assets : Input.t := Input.mk (Some []) (Some [account_Acc1]) None None.

(** The asset of [capped_A] priced at -1 per unit. *)
Definition negative_value : Input.t :=
  Input.mk (Some [Asset.mk (Some "A1") (Some (qz 100)) (Some (qz (-1))) (Some (qz 1))])
           (Some [account_Acc1]) None (Some [limit_A1_Acc1]).

(** The asset of [capped_A] at tier 0. *)
Definition zero_tier : Input.t :=
  Input.mk (Some [Asset.mk (Some "A1") (Some (qz 100)) (Some (qz 1)) (Some (qz 0))])
           (Some [account_Acc1]) None (Some [limit_A1_Acc1]).

(** Scenario A with two haircuts and two limits for the same pair. *)
Definition twice : Input.t :=
  Input.mk (Some [asset_A1 100]) (Some [account_Acc1])
    (Some [HaircutEntry.mk (Some "A1") (Some "Acc1") (Some (qz 1));
           HaircutEntry.mk (Some "A1") (Some "Acc1") (Some (Q2Qc (1 # 2)))])
    (Some [LimitEntry.mk (Some "A1") (Some "Acc1") (Some (qz 10));
           LimitEntry.mk (Some "A1") (Some "Acc1") (Some (qz 80))]).

Definition answers (st : LpStatus) (q : Qc) : Solver :=
  fun _ => Ok (mkSolution st {[ ("A1", "Acc1") := q ]}).

(** One part in 10^9 below zero. *)
Definition tiny_negative : Qc := Q2Qc (-1 # 1000000000).

(** The tables read from scenario A, and from [capped_A]. *)
Definition scenario_A_env : Env.t :=
  Env.mk ["A1"] {[ "A1" := qz 100 ]} {[ "A1" := qz 1 ]} {[ "A1" := qz 1 ]}
         ["Acc1"] {[ "Acc1" := qz 50 ]} ∅ ∅.

Definition capped_A_env : Env.t :=
  Env.mk ["A1"] {[ "A1" := qz 100 ]} {[ "A1" := qz 1 ]} {[ "A1" := qz 1 ]}
         ["Acc1"] {[ "Acc1" := qz 50 ]} ∅ {[ ("A1", "Acc1") := qz 1000 ]}.

Definition zero_tier_env : Env.t :=
  Env.mk ["A1"] {[ "A1" := qz 100 ]} {[ "A1" := qz 1 ]} {[ "A1" := qz 0 ]}
         ["Acc1"] {[ "Acc1" := qz 50 ]} ∅ {[ ("A1", "Acc1") := qz 1000 ]}.

Definition no_assets_env : Env.t :=
  Env.mk [] ∅ ∅ ∅ ["Acc1"] {[ "Acc1" := qz 50 ]} ∅ ∅.

(** A solver that cannot be started. *)
Definition unavailable : Solver :=
  fun _ => Raise (PulpSolverError "Pulp: cannot execute cbc").


(** [capped_A] with a haircut for an asset that does not exist. *)
Definition capped_unknown_asset : Input.t :=
  Input.mk (Some [asset_A1 100]) (Some [account_Acc1])
    (Some [HaircutEntry.mk (Some "ZZ") (Some "Acc1") (Some (Q2Qc (1 # 2)))])
    (Some [limit_A1_Acc1]).

(** No top-level field at all. *)
Definition bare : Input.t := Input.mk None None None None.

(** Scenario A whose asset has no market value. *)
Definition no_market_value : Input.t :=
  Input.mk (Some [Asset.mk (Some "A1") (Some (qz 100)) None (Some (qz 1))])
           (Some [account_Acc1]) None None.

(** ** Further inputs and readings *)

Definition with_limit_matrix (input_data : Input.t) (l : list LimitEntry.t) : Input.t :=
  Input.mk (Input.assets input_data) (Input.accounts input_data)
           (Input.haircut_matrix input_data) (Some l).

(** Two results of building a sparse table that a model cannot tell apart
    on the keys in [P]: the same exception, or tables equal on [P]. *)
Definition same_table (P : string * string -> Prop)
    (r' r : result (gmap (string * string) Qc)) : Prop :=
  match r', r with
  | Ok d', Ok d => forall k, P k -> d' !! k = d !! k
  | Raise e', Raise e => e' = e
  | _, _ => False
  end.

(** Two assets with one id; the second is worth 3 per unit at tier 2. *)
Definition shared_id : Input.t :=
  Input.mk (Some [asset_A1 100;
                  Asset.mk (Some "A1") (Some (qz 7)) (Some (qz 3)) (Some (qz 2))])
           (Some [account_Acc1; Account.mk (Some "Acc1") (Some (qz 9))]) None None.

(** The second asset lacks its id, the first its quantity and its value. *)
Definition several_missing : Input.t :=
  Input.mk (Some [Asset.mk (Some "A1") None None (Some (qz 1));
                  Asset.mk None (Some (qz 1)) (Some (qz 1)) (Some (qz 1))])
           (Some [account_Acc1]) None None.

(** The first asset lacks its value, the second its quantity. *)
Definition two_columns_missing : Input.t :=
  Input.mk (Some [Asset.mk (Some "A1") (Some (qz 1)) None (Some (qz 1));
                  Asset.mk (Some "A2") None (Some (qz 1)) (Some (qz 1))])
           (Some [account_Acc1]) None None.

Definition two_by_two_limits : list LimitEntry.t :=
  [LimitEntry.mk (Some "A1") (Some "Acc1") (Some (qz 60));
   LimitEntry.mk (Some "A1") (Some "Acc2") (Some (qz 10));
   LimitEntry.mk (Some "A2") (Some "Acc1") (Some (qz 20));
   LimitEntry.mk (Some "A2") (Some "Acc2") (Some (qz 70))].

(** Two assets, two accounts, a haircut for two of the pairs and a limit
    for each of the four. *)
Definition two_by_two : Input.t :=
  Input.mk (Some [asset_A1 100;
                  Asset.mk (Some "A2") (Some (qz 40)) (Some (qz 2)) (Some (qz 3))])
           (Some [account_Acc1; Account.mk (Some "Acc2") (Some (qz 30))])
           (Some [HaircutEntry.mk (Some "A1") (Some "Acc1") (Some (Q2Qc (1 # 2)));
                  HaircutEntry.mk (Some "A2") (Some "Acc2") (Some (Q2Qc (3 # 4)))])
           (Some two_by_two_limits).

Definition two_by_two_env : Env.t :=
  Env.mk ["A1"; "A2"]
         {[ "A1" := qz 100; "A2" := qz 40 ]} {[ "A1" := qz 1; "A2" := qz 2 ]}
         {[ "A1" := qz 1; "A2" := qz 3 ]}
         ["Acc1"; "Acc2"] {[ "Acc1" := qz 50; "Acc2" := qz 30 ]}
         {[ ("A1", "Acc1") := Q2Qc (1 # 2); ("A2", "Acc2") := Q2Qc (3 # 4) ]}
         {[ ("A1", "Acc1") := qz 60; ("A1", "Acc2") := qz 10;
            ("A2", "Acc1") := qz 20; ("A2", "Acc2") := qz 70 ]}.

(** Other limits for the four pairs of [two_by_two]. *)
Definition other_limits : list LimitEntry.t :=
  [LimitEntry.mk (Some "A1") (Some "Acc1") (Some (qz 1));
   LimitEntry.mk (Some "A1") (Some "Acc2") (Some (qz 2));
   LimitEntry.mk (Some "A2") (Some "Acc1") (Some (qz 3));
   LimitEntry.mk (Some "A2") (Some "Acc2") (Some (qz 4))].

(** Two assets whose ids differ only in characters PuLP does not keep in a
    name; both pairs have a limit. *)
Definition lookalike : Input.t :=
  Input.mk (Some [Asset.mk (Some "A-1") (Some (qz 100)) (Some (qz 1)) (Some (qz 1));
                  Asset.mk (Some "A 1") (Some (qz 7)) (Some (qz 3)) (Some (qz 2))])
           (Some [account_Acc1]) None
           (Some [LimitEntry.mk (Some "A-1") (Some "Acc1") (Some (qz 10));
                  LimitEntry.mk (Some "A 1") (Some "Acc1") (Some (qz 20))]).

(** The tables read from [two_by_two] under [other_limits], and from
    [two_by_two] without its haircuts. *)
Definition two_by_two_other_env : Env.t :=
  Env.mk ["A1"; "A2"]
         {[ "A1" := qz 100; "A2" := qz 40 ]} {[ "A1" := qz 1; "A2" := qz 2 ]}
         {[ "A1" := qz 1; "A2" := qz 3 ]}
         ["Acc1"; "Acc2"] {[ "Acc1" := qz 50; "Acc2" := qz 30 ]}
         {[ ("A1", "Acc1") := Q2Qc (1 # 2); ("A2", "Acc2") := Q2Qc (3 # 4) ]}
         {[ ("A1", "Acc1") := qz 1; ("A1", "Acc2") := qz 2;
            ("A2", "Acc1") := qz 3; ("A2", "Acc2") := qz 4 ]}.

Definition two_by_two_plain_env : Env.t :=
  Env.mk ["A1"; "A2"]
         {[ "A1" := qz 100; "A2" := qz 40 ]} {[ "A1" := qz 1; "A2" := qz 2 ]}
         {[ "A1" := qz 1; "A2" := qz 3 ]}
         ["Acc1"; "Acc2"] {[ "Acc1" := qz 50; "Acc2" := qz 30 ]}
         ∅
         {[ ("A1", "Acc1") := qz 60; ("A1", "Acc2") := qz 10;
            ("A2", "Acc1") := qz 20; ("A2", "Acc2") := qz 70 ]}.

(** The field whose lookup fails first on an entry of a sparse table. *)
Definition haircut_first_missing (e : HaircutEntry.t) : string :=
  if present (HaircutEntry.asset_id e) then
    if present (HaircutEntry.account_id e) then "haircut" else "account_id"
  else "asset_id".

Definition limit_first_missing (e : LimitEntry.t) : string :=
  if present (LimitEntry.asset_id e) then
    if present (LimitEntry.account_id e) then "max_allocation" else "account_id"
  else "asset_id".

(** The key of the [KeyError] the parser raises, if it raises one.  Each
    comprehension over the assets and the accounts reads one field of
    every entry before the next comprehension starts; the loops over the
    two tables read the three fields of an entry before the next entry. *)
Definition first_KeyError (input_data : Input.t) : option string :=
  let assets := get_list (Input.assets input_data) in
  let accounts := get_list (Input.accounts input_data) in
  if negb (forallb (fun a => present (Asset.asset_id a)) assets) then Some "asset_id"
  else if negb (forallb (fun a => present (Asset.available_quantity a)) assets)
  then Some "available_quantity"
  else if negb (forallb (fun a => present (Asset.market_value a)) assets)
  then Some "market_value"
  else if negb (forallb (fun a => present (Asset.tier_rating a)) assets)
  then Some "tier_rating"
  else if negb (forallb (fun a => present (Account.account_id a)) accounts)
  then Some "account_id"
  else if negb (forallb (fun a => present (Account.collateral_requirement a)) accounts)
  then Some "collateral_requirement"
  else
    match List.find (fun e => negb (haircut_ok e))
                    (get_list (Input.haircut_matrix input_data)) with
    | Some e => Some (haircut_first_missing e)
    | None =>
        match List.find (fun e => negb (limit_ok e))
                        (get_list (Input.limit_matrix input_data)) with
        | Some e => Some (limit_first_missing e)
        | None => None
        end
    end.

(** A solver that finds the optimum of scenario A. *)
Definition fifty : Solver := answers LpStatusOptimal (qz 50).

(** A pair whose three factors are all different from 0. *)
Definition costed (env : Env.t) (i j : string) : Prop :=
  tier_rating env i ≠ 0%Qc /\ market_value env i ≠ 0%Qc /\ haircut env i j ≠ 0%Qc.




(** ** The error monad: equations *)

Lemma bind_Ok {A B} (a : A) (k : A -> result B) : (Ok a ≫= k) = k a.
Proof. reflexivity. Qed.


Lemma bind_Ok_inv {A B} (m : result A) (k : A -> result B) (b : B) :
  (m ≫= k) = Ok b -> exists a, m = Ok a /\ k a = Ok b.
Proof. destruct m as [a|e]; [eauto | discriminate]. Qed.

Lemma mapM_ok {A B} (f : A -> result B) (g : A -> B) (l : list A) :
  (forall x, x ∈ l -> f x = Ok (g x)) -> mapM f l = Ok (map g l).
Proof.
  induction l as [|x l IH]; intros Hf; [reflexivity|].
  cbn [mapM map]. rewrite (Hf x) by left. rewrite bind_Ok.
  rewrite IH; [reflexivity|]. intros y Hy. apply Hf. by right.
Qed.

Lemma mapM_length {A B} (f : A -> result B) (l : list A) (r : list B) :
  mapM f l = Ok r -> length r = length l.
Proof.
  revert r. induction l as [|x l IH]; intros r H; cbn [mapM] in H.
  - by inversion H.
  - apply bind_Ok_inv in H as (y & _ & H).
    apply bind_Ok_inv in H as (ys & Hys & H). inversion H; subst.
    cbn. f_equal. by apply IH.
Qed.

Lemma foldM_app {A S} (f : S -> A -> result S) (s : S) (l1 l2 : list A) :
  foldM f s (l1 ++ l2) = (foldM f s l1 ≫= fun s' => foldM f s' l2).
Proof.
  revert s. induction l1 as [|x l1 IH]; intros s; [reflexivity|].
  cbn [foldM app]. destruct (f s x) as [s'|e]; [|reflexivity].
  rewrite !bind_Ok. apply IH.
Qed.

(** A loop whose body always succeeds is a left fold. *)
Lemma foldM_ok {A S} (f : S -> A -> result S) (g : S -> A -> S) (s : S) (l : list A) :
  (forall s x, x ∈ l -> f s x = Ok (g s x)) -> foldM f s l = Ok (foldl g s l).
Proof.
  revert s. induction l as [|x l IH]; intros s Hf; [reflexivity|].
  cbn [foldM foldl]. rewrite Hf by left. rewrite bind_Ok.
  apply IH. intros s' y Hy. apply Hf. by right.
Qed.

(** ** Dictionaries built by the parser *)

Lemma dict_comp_covers {A V} (key : A -> result string) (val : A -> result V)
    (l : list A) (ks : list string) (d0 d : gmap string V) :
  mapM key l = Ok ks ->
  foldM (fun d x => k ← key x; v ← val x; Ok (<[k := v]> d)) d0 l = Ok d ->
  forall k, k ∈ ks \/ is_Some (d0 !! k) -> is_Some (d !! k).
Proof.
  revert ks d0. induction l as [|x l IH]; intros ks d0 Hks Hd k Hk; cbn in Hks, Hd.
  - inversion Hks; subst. inversion Hd; subst.
    destruct Hk as [Hk|Hk]; [by apply elem_of_nil in Hk | done].
  - apply bind_Ok_inv in Hks as (k0 & Hk0 & Hks).
    apply bind_Ok_inv in Hks as (ks' & Hks' & Hks). inversion Hks; subst.
    apply bind_Ok_inv in Hd as (d1 & Hd1 & Hd). rewrite Hk0, bind_Ok in Hd1.
    apply bind_Ok_inv in Hd1 as (v & _ & Hd1). inversion Hd1; subst.
    apply (IH ks' (<[k0 := v]> d0)); [done..|].
    destruct Hk as [Hk|Hk].
    + apply elem_of_cons in Hk as [->|Hk]; [right | by left].
      rewrite lookup_insert_eq. by eexists.
    + right. destruct (decide (k0 = k)) as [->|Hne].
      * rewrite lookup_insert_eq. by eexists.
      * by rewrite lookup_insert_ne.
Qed.


Lemma parse_tables_cover (input_data : Input.t) (env : Env.t) :
  parse input_data = Ok env -> tables_cover env.
Proof.
  unfold parse, dict_comp. intros H.
  apply bind_Ok_inv in H as (I & HI & H).
  apply bind_Ok_inv in H as (Q_i & HQ & H).
  apply bind_Ok_inv in H as (V_i & HV & H).
  apply bind_Ok_inv in H as (omega_i & Hw & H).
  apply bind_Ok_inv in H as (J & HJ & H).
  apply bind_Ok_inv in H as (C_j & HC & H).
  apply bind_Ok_inv in H as (H_ij & _ & H).
  apply bind_Ok_inv in H as (L_ij & _ & H).
  inversion H; subst; clear H. split; cbn.
  - intros i Hi. split; [|split].
    + apply (dict_comp_covers _ _ _ _ _ _ HI HQ). by left.
    + apply (dict_comp_covers _ _ _ _ _ _ HI HV). by left.
    + apply (dict_comp_covers _ _ _ _ _ _ HI Hw). by left.
  - intros j Hj. apply (dict_comp_covers _ _ _ _ _ _ HJ HC). by left.
Qed.

(** ** The variables *)

Lemma LpVariable_dicts_lookup (indices : list (string * string)) (ix : string * string) :
  ix ∈ indices ->
  LpVariable_dicts indices (Some 0%Qc) LpContinuous !! ix = Some (Qvar ix).
Proof.
  unfold LpVariable_dicts. generalize (∅ : gmap (string * string) LpVariable).
  intros d Hix. cut (ix ∈ indices \/ d !! ix = Some (Qvar ix)); [|by left].
  clear Hix. revert d. induction indices as [|ix' l IH]; intros d Hd; cbn [foldl].
  - destruct Hd as [Hd|Hd]; [by apply elem_of_nil in Hd | done].
  - apply IH. destruct Hd as [Hd|Hd].
    + apply elem_of_cons in Hd as [->|Hd]; [right | by left].
      by rewrite lookup_insert_eq.
    + destruct (decide (ix' = ix)) as [->|Hne].
      * right. by rewrite lookup_insert_eq.
      * right. by rewrite lookup_insert_ne.
Qed.

Lemma elem_of_pairs (I J : list string) (i j : string) :
  (i, j) ∈ pairs I J <-> i ∈ I /\ j ∈ J.
Proof.
  unfold pairs. rewrite list_elem_of_bind. split.
  - intros (i' & Hij & Hi). apply list_elem_of_bind in Hij as (j' & Hij & Hj).
    apply list_elem_of_singleton in Hij. inversion Hij; subst. done.
  - intros [Hi Hj]. exists i. split; [|done].
    apply list_elem_of_bind. exists j. split; [|done]. by apply list_elem_of_singleton.
Qed.

Lemma pairs_nil_l (J : list string) : pairs [] J = [].
Proof. reflexivity. Qed.

Lemma pairs_nil_r (I : list string) : pairs I [] = [].
Proof. unfold pairs. induction I as [|i I IH]; [reflexivity|]. cbn. apply IH. Qed.

Lemma pairs_cons (i : string) (I J : list string) :
  pairs (i :: I) J = map (fun j => (i, j)) J ++ pairs I J.
Proof.
  unfold pairs. cbn. f_equal.
Qed.

(** The nested loops visit the pairs in the order of [pairs]. *)
Lemma foldM_nested {S} (f : S -> string * string -> result S) (s : S) (I J : list string) :
  foldM (fun s i => foldM (fun s j => f s (i, j)) s J) s I = foldM f s (pairs I J).
Proof.
  revert s. induction I as [|i I IH]; intros s; [reflexivity|].
  rewrite pairs_cons, foldM_app. cbn [foldM].
  assert (forall s, foldM (fun s j => f s (i, j)) s J
                    = foldM f s (map (fun j => (i, j)) J)) as ->.
  { clear. induction J as [|j J IHJ]; intros s; [reflexivity|].
    cbn. destruct (f s (i, j)); [apply IHJ | reflexivity]. }
  destruct (foldM f s (map (fun j => (i, j)) J)); [|reflexivity].
  rewrite !bind_Ok. apply IH.
Qed.


Lemma mapM_ext_in {A B} (f g : A -> result B) (l : list A) :
  (forall x, x ∈ l -> f x = g x) -> mapM f l = mapM g l.
Proof.
  induction l as [|x l IH]; intros Hfg; [reflexivity|].
  cbn [mapM]. rewrite (Hfg x) by left. rewrite IH; [reflexivity|].
  intros y Hy. apply Hfg. by right.
Qed.

Lemma foldM_ext_in {A S} (f g : S -> A -> result S) (s : S) (l : list A) :
  (forall s x, x ∈ l -> f s x = g s x) -> foldM f s l = foldM g s l.
Proof.
  revert s. induction l as [|x l IH]; intros s Hfg; [reflexivity|].
  cbn [foldM]. rewrite (Hfg s x) by left.
  destruct (g s x) as [s'|e]; [|reflexivity].
  rewrite !bind_Ok. apply IH. intros s0 y Hy. apply Hfg. by right.
Qed.

(** ** What a successful construction has built *)

Lemma add_constraint_Ok_inv (prob prob' : LpProblem) (c : LpConstraint) :
  add_constraint prob c = Ok prob' ->
  (translate (cname c) ∉ stored_names prob) /\
  prob' = mkLpProblem (pname prob) (psense prob) (objective prob) (constraints prob ++ [c]).
Proof.
  unfold add_constraint. destruct (decide _) as [Hin|Hout]; [discriminate|].
  intros H. by inversion H.
Qed.

(** A loop of [prob += constraint] that comes to its end has appended its
    constraints in order, under stored names that were all free. *)
Lemma foldM_add_inv {A} (f : A -> result LpConstraint) (g : A -> LpConstraint)
    (l : list A) (prob prob' : LpProblem) :
  (forall x c, x ∈ l -> f x = Ok c -> c = g x) ->
  foldM (fun prob x => c ← f x; add_constraint prob c) prob l = Ok prob' ->
  prob' = mkLpProblem (pname prob) (psense prob) (objective prob)
            (constraints prob ++ map g l) /\
  (NoDup (stored_names prob) -> NoDup (stored_names prob')).
Proof.
  revert prob. induction l as [|x l IH]; intros prob Hf Hfold; cbn [foldM] in Hfold.
  - inversion Hfold; subst. cbn [map]. rewrite app_nil_r. by destruct prob'.
  - apply bind_Ok_inv in Hfold as (prob1 & Hstep & Hfold).
    apply bind_Ok_inv in Hstep as (c & Hc & Hadd).
    rewrite (Hf x c (list_elem_of_here _ _) Hc) in Hadd.
    apply add_constraint_Ok_inv in Hadd as [Hfree ->].
    destruct (IH _ (fun y c' Hy => Hf y c' (list_elem_of_further _ _ _ Hy)) Hfold)
      as [-> Hnd].
    cbn [pname psense objective constraints]. split.
    + by rewrite <- app_assoc.
    + intros Hnd0. apply Hnd. unfold stored_names. cbn [constraints].
      rewrite map_app. cbn [map]. apply list.NoDup_app. split; [exact Hnd0|]. split.
      * intros n Hn Hn'. apply list_elem_of_singleton in Hn'. by subst.
      * apply NoDup_singleton.
Qed.

Lemma expr_times_var (v : LpVariable) (c : Qc) :
  expr_times (var_expr v) c = if decide (c = 0%Qc) then [] else [(v, c)].
Proof.
  unfold expr_times, var_expr. destruct (decide _); [reflexivity|].
  cbn. f_equal. f_equal. ring.
Qed.

Section ClosedForm.
Variable pulp : PuLP.t.
Variable env : Env.t.
Hypothesis Hcover : tables_cover env.

Lemma var_getitem_ok (i j : string) :
  i ∈ Env.I env -> j ∈ Env.J env -> var_getitem (Q_vars_of env) (i, j) = Ok (Qvar (i, j)).
Proof.
  intros Hi Hj. unfold var_getitem, Q_vars_of.
  rewrite LpVariable_dicts_lookup; [reflexivity|]. by apply elem_of_pairs.
Qed.

Lemma V_getitem_ok (i : string) :
  i ∈ Env.I env -> dict_getitem (Env.V_i env) i = Ok (market_value env i).
Proof.
  intros Hi. destruct Hcover as [Hc _]. destruct (Hc i Hi) as (_ & [v Hv] & _).
  unfold dict_getitem, market_value, dict_get. by rewrite Hv.
Qed.

Lemma omega_getitem_ok (i : string) :
  i ∈ Env.I env -> dict_getitem (Env.omega_i env) i = Ok (tier_rating env i).
Proof.
  intros Hi. destruct Hcover as [Hc _]. destruct (Hc i Hi) as (_ & _ & [v Hv]).
  unfold dict_getitem, tier_rating, dict_get. by rewrite Hv.
Qed.

Lemma Q_getitem_ok (i : string) :
  i ∈ Env.I env -> dict_getitem (Env.Q_i env) i = Ok (available_quantity env i).
Proof.
  intros Hi. destruct Hcover as [Hc _]. destruct (Hc i Hi) as ([v Hv] & _).
  unfold dict_getitem, available_quantity, dict_get. by rewrite Hv.
Qed.

Lemma C_getitem_ok (j : string) :
  j ∈ Env.J env -> dict_getitem (Env.C_j env) j = Ok (requirement env j).
Proof.
  intros Hj. destruct Hcover as [_ Hc]. destruct (Hc j Hj) as [v Hv].
  unfold dict_getitem, requirement, dict_get. by rewrite Hv.
Qed.

Lemma objective_term_eq (ix : string * string) :
  expr_times (expr_times (expr_times (var_expr (Qvar ix)) (tier_rating env ix.1))
                         (market_value env ix.1))
             (haircut env ix.1 ix.2)
  = objective_term env ix.
Proof.
  unfold objective_term. rewrite expr_times_var. unfold expr_times.
  destruct (decide (tier_rating env ix.1 = 0%Qc)) as [Hw|Hw];
    destruct (decide (market_value env ix.1 = 0%Qc)) as [Hv|Hv];
    destruct (decide (haircut env ix.1 ix.2 = 0%Qc)) as [Hh|Hh];
    destruct (decide _) as [Hor|Hor]; try reflexivity; try tauto.
  cbn. f_equal. f_equal. ring.
Qed.

Lemma requirement_term_eq (i j : string) :
  expr_times (expr_times (var_expr (Qvar (i, j))) (market_value env i)) (haircut env i j)
  = requirement_term env j i.
Proof.
  unfold requirement_term. rewrite expr_times_var. unfold expr_times.
  destruct (decide (market_value env i = 0%Qc)) as [Hv|Hv];
    destruct (decide (haircut env i j = 0%Qc)) as [Hh|Hh];
    destruct (decide _) as [Hor|Hor]; try reflexivity; try tauto.
  cbn. f_equal. f_equal. ring.
Qed.

Lemma objective_terms_ok : objective_terms env (Q_vars_of env) = Ok (objective_row env).
Proof.
  unfold objective_terms, objective_row.
  rewrite (mapM_ok _ (objective_term env)).
  - rewrite bind_Ok. unfold lpSum. by rewrite flat_map_concat_map.
  - intros [i j] Hij. apply elem_of_pairs in Hij as [Hi Hj].
    rewrite omega_getitem_ok, bind_Ok, var_getitem_ok, bind_Ok, V_getitem_ok, bind_Ok
      by done.
    f_equal. apply (objective_term_eq (i, j)).
Qed.

Lemma collateral_requirement_ok (j : string) :
  j ∈ Env.J env -> collateral_requirement env (Q_vars_of env) j = Ok (collateral_row env j).
Proof.
  intros Hj. unfold collateral_requirement, collateral_row.
  rewrite (mapM_ok _ (requirement_term env j)).
  - rewrite bind_Ok, C_getitem_ok, bind_Ok by done. unfold lpSum.
    by rewrite flat_map_concat_map.
  - intros i Hi. rewrite var_getitem_ok, bind_Ok, V_getitem_ok, bind_Ok by done.
    f_equal. apply requirement_term_eq.
Qed.

Lemma asset_quantity_limit_ok (i : string) :
  i ∈ Env.I env -> asset_quantity_limit env (Q_vars_of env) i = Ok (inventory_row env i).
Proof.
  intros Hi. unfold asset_quantity_limit, inventory_row.
  rewrite (mapM_ok _ (fun j => var_expr (Qvar (i, j)))).
  - rewrite bind_Ok, Q_getitem_ok, bind_Ok by done. unfold lpSum, var_expr.
    do 2 f_equal. induction (Env.J env) as [|j J IH]; [reflexivity|].
    cbn. by rewrite IH.
  - intros j Hj. by rewrite var_getitem_ok, bind_Ok.
Qed.

(** A cap that is formed is the cap of the closed form; it is formed
    unless the pair has no limit and PuLP refuses an infinite bound. *)
Lemma allocation_limit_cases (i j : string) :
  i ∈ Env.I env -> j ∈ Env.J env ->
  allocation_limit pulp env (Q_vars_of env) i j =
  match Env.L_ij env !! (i, j), pulp with
  | None, PuLP.RefusesInfinity msg => Raise (PulpError msg)
  | _, _ => Ok (cap_row env (i, j))
  end.
Proof.
  intros Hi Hj. unfold allocation_limit, cap_row, cap_term, limit, le_limit.
  rewrite var_getitem_ok, bind_Ok, V_getitem_ok, bind_Ok, expr_times_var by done.
  cbn [fst snd]. destruct (Env.L_ij env !! (i, j)); [reflexivity|].
  by destruct pulp.
Qed.

Lemma allocation_limit_Ok (i j : string) (c : LpConstraint) :
  i ∈ Env.I env -> j ∈ Env.J env ->
  allocation_limit pulp env (Q_vars_of env) i j = Ok c -> c = cap_row env (i, j).
Proof.
  intros Hi Hj. rewrite allocation_limit_cases by done.
  destruct (Env.L_ij env !! (i, j)); [by intros [= <-]|].
  destruct pulp; [discriminate | by intros [= <-]].
Qed.

Lemma build_constraints_inv (prob prob' : LpProblem) :
  build_constraints pulp env (Q_vars_of env) prob = Ok prob' ->
  prob' = mkLpProblem (pname prob) (psense prob) (objective prob)
            (constraints prob ++ constraints (model_of env)) /\
  (NoDup (stored_names prob) -> NoDup (stored_names prob')).
Proof.
  unfold build_constraints. intros H.
  apply bind_Ok_inv in H as (p1 & H1 & H).
  apply bind_Ok_inv in H as (p2 & H2 & H3).
  apply (foldM_add_inv _ (collateral_row env)) in H1 as [-> Hn1].
  2:{ intros j c Hj. rewrite collateral_requirement_ok by done. by intros [= <-]. }
  apply (foldM_add_inv _ (inventory_row env)) in H2 as [-> Hn2].
  2:{ intros i c Hi. rewrite asset_quantity_limit_ok by done. by intros [= <-]. }
  rewrite (foldM_nested (fun prob ix =>
             c ← allocation_limit pulp env (Q_vars_of env) ix.1 ix.2;
             add_constraint prob c)) in H3.
  apply (foldM_add_inv _ (cap_row env)) in H3 as [-> Hn3].
  2:{ intros [i j] c Hij. apply elem_of_pairs in Hij as [Hi Hj].
      by apply allocation_limit_Ok. }
  split.
  - unfold model_of. cbn. by rewrite <- !app_assoc.
  - intros Hn. by apply Hn3, Hn2, Hn1.
Qed.

(** The problem a construction that does not raise has built, under
    stored names that differ from one another. *)
Lemma build_model_Ok_inv (Q_vars : gmap (string * string) LpVariable) (prob : LpProblem) :
  build_model pulp env = Ok (Q_vars, prob) ->
  Q_vars = Q_vars_of env /\ prob = model_of env /\ NoDup (stored_names prob).
Proof.
  unfold build_model. fold (Q_vars_of env). rewrite objective_terms_ok, bind_Ok.
  intros H. apply bind_Ok_inv in H as (p & Hb & H). inversion H; subst.
  apply build_constraints_inv in Hb as [-> Hnd]. split; [done|]. split.
  - reflexivity.
  - apply Hnd. apply NoDup_nil_2.
Qed.
End ClosedForm.

(** ** [run] after a successful construction *)

Lemma foldl_snoc_map {A B} (g : A -> B) (acc : list B) (l : list A) :
  foldl (fun acc x => acc ++ [g x]) acc l = acc ++ map g l.
Proof.
  revert acc. induction l as [|x l IH]; intros acc; cbn [foldl map].
  - by rewrite app_nil_r.
  - rewrite IH. by rewrite <- app_assoc.
Qed.

Lemma extract_allocation_ok (env : Env.t) (sol : Solution) :
  extract_allocation env (Q_vars_of env) sol = Ok (allocation_rows env sol).
Proof.
  unfold extract_allocation, allocation_rows.
  rewrite (foldM_nested (fun m ix =>
             q ← var_getitem (Q_vars_of env) ix;
             Ok (m ++ [Allocation.mk ix.1 ix.2 (varValue sol !! index q)]))).
  rewrite (foldM_ok _ (fun m ix => m ++ [Allocation.mk ix.1 ix.2 (varValue sol !! ix)])).
  - by rewrite foldl_snoc_map.
  - intros m [i j] Hij. apply elem_of_pairs in Hij as [Hi Hj].
    by rewrite var_getitem_ok.
Qed.

(** The problem handed to the solver is the closed form of the tables. *)
Lemma build_lp_Ok_inv (pulp : PuLP.t) (input_data : Input.t) (prob : LpProblem) :
  build_lp pulp input_data = Ok prob ->
  exists env,
    parse input_data = Ok env /\
    build_model pulp env = Ok (Q_vars_of env, model_of env) /\
    prob = model_of env /\ NoDup (stored_names prob).
Proof.
  unfold build_lp. intros H. apply bind_Ok_inv in H as (env & Hp & H).
  apply bind_Ok_inv in H as ([Q_vars prob'] & Hb & H). inversion H; subst prob'.
  destruct (build_model_Ok_inv pulp env (parse_tables_cover _ _ Hp) _ _ Hb)
    as (-> & -> & Hnd).
  by exists env.
Qed.

Lemma build_lp_parse (pulp : PuLP.t) (input_data : Input.t) (env : Env.t)
    (prob : LpProblem) :
  parse input_data = Ok env -> build_lp pulp input_data = Ok prob ->
  build_model pulp env = Ok (Q_vars_of env, model_of env) /\ prob = model_of env.
Proof.
  intros Hp Hb. destruct (build_lp_Ok_inv _ _ _ Hb) as (env' & Hp' & Hm & -> & _).
  rewrite Hp in Hp'. by inversion Hp'; subst.
Qed.

Lemma run_eq (pulp : PuLP.t) (cbc : Solver) (input_data : Input.t)
    (params : option SolverParams) (env : Env.t) (prob : LpProblem) :
  parse input_data = Ok env ->
  build_lp pulp input_data = Ok prob ->
  run pulp cbc input_data params =
  (sol ← chosen_solver cbc params prob;
   if decide (status sol ≠ LpStatusOptimal) then Ok no_optimal_solution
   else Ok (Output.mk (allocation_rows env sol)
                      (value_after_solve sol (objective prob)) None)).
Proof.
  intros Hp Hb. destruct (build_lp_parse _ _ _ _ Hp Hb) as [Hm ->].
  unfold run. rewrite Hp, bind_Ok, Hm, bind_Ok.
  fold (chosen_solver cbc params).
  destruct (chosen_solver cbc params (model_of env)) as [sol|e]; [|reflexivity].
  rewrite !bind_Ok. destruct (decide (status sol ≠ LpStatusOptimal)); [reflexivity|].
  by rewrite extract_allocation_ok.
Qed.

Lemma run_parse_raise (pulp : PuLP.t) (cbc : Solver) (input_data : Input.t)
    (params : option SolverParams) (e : exn) :
  parse input_data = Raise e -> run pulp cbc input_data params = Raise e.
Proof. intros Hp. unfold run. by rewrite Hp. Qed.

Lemma run_build_raise (pulp : PuLP.t) (cbc : Solver) (input_data : Input.t)
    (params : option SolverParams) (e : exn) :
  build_lp pulp input_data = Raise e -> run pulp cbc input_data params = Raise e.
Proof.
  unfold build_lp, run. destruct (parse input_data) as [env|e']; [|by intros [= ->]].
  rewrite !bind_Ok. destruct (build_model pulp env) as [[Q_vars prob]|e'].
  - rewrite bind_Ok. discriminate.
  - by intros [= ->].
Qed.

Lemma run_non_optimal (pulp : PuLP.t) (cbc : Solver) (input_data : Input.t)
    (params : option SolverParams) (env : Env.t) (prob : LpProblem) (sol : Solution) :
  parse input_data = Ok env ->
  build_lp pulp input_data = Ok prob ->
  chosen_solver cbc params prob = Ok sol ->
  status sol ≠ LpStatusOptimal ->
  run pulp cbc input_data params = Ok no_optimal_solution.
Proof.
  intros Hp Hb Hs Hst. rewrite (run_eq _ _ _ _ _ _ Hp Hb), Hs, bind_Ok.
  by destruct (decide (status sol ≠ LpStatusOptimal)).
Qed.

Lemma run_optimal (pulp : PuLP.t) (cbc : Solver) (input_data : Input.t)
    (params : option SolverParams) (env : Env.t) (prob : LpProblem) (sol : Solution) :
  parse input_data = Ok env ->
  build_lp pulp input_data = Ok prob ->
  chosen_solver cbc params prob = Ok sol ->
  status sol = LpStatusOptimal ->
  run pulp cbc input_data params =
  Ok (Output.mk (allocation_rows env sol) (value_after_solve sol (objective prob)) None).
Proof.
  intros Hp Hb Hs Hst. rewrite (run_eq _ _ _ _ _ _ Hp Hb), Hs, bind_Ok.
  by destruct (decide (status sol ≠ LpStatusOptimal)).
Qed.

(** ** When the parser raises *)

Lemma foldM_cases {A S} (f : S -> A -> result S) (ok : A -> bool)
    (miss : A -> list string) (l : list A) (s : S) :
  (forall s x, if ok x then exists s', f s x = Ok s'
               else exists k, k ∈ miss x /\ f s x = Raise (KeyError k)) ->
  (forallb ok l = true /\ exists s', foldM f s l = Ok s') \/
  (exists x k, x ∈ l /\ ok x = false /\ k ∈ miss x /\ foldM f s l = Raise (KeyError k)).
Proof.
  intros Hf. revert s. induction l as [|x l IH]; intros s; cbn [foldM forallb].
  - left. eauto.
  - specialize (Hf s x). destruct (ok x) eqn:Hok.
    + destruct Hf as [s' ->]. rewrite bind_Ok.
      destruct (IH s') as [[Hall Hs]|(y & k & Hy & Hoky & Hk & Hr)].
      * left. done.
      * right. exists y, k. repeat split; try done. by right.
    + destruct Hf as (k & Hk & ->). right. exists x, k. repeat split; try done. by left.
Qed.

Lemma mapM_cases {A B} (f : A -> result B) (ok : A -> bool)
    (miss : A -> list string) (l : list A) :
  (forall x, if ok x then exists y, f x = Ok y
             else exists k, k ∈ miss x /\ f x = Raise (KeyError k)) ->
  (forallb ok l = true /\ exists r, mapM f l = Ok r) \/
  (exists x k, x ∈ l /\ ok x = false /\ k ∈ miss x /\ mapM f l = Raise (KeyError k)).
Proof.
  intros Hf. induction l as [|x l IH]; cbn [mapM forallb].
  - left. eauto.
  - specialize (Hf x). destruct (ok x) eqn:Hok.
    + destruct Hf as [y ->]. rewrite bind_Ok.
      destruct IH as [[Hall [r ->]]|(z & k & Hz & Hokz & Hk & ->)].
      * left. rewrite bind_Ok. eauto.
      * right. exists z, k. repeat split; try done. by right.
    + destruct Hf as (k & Hk & ->). right. exists x, k. repeat split; try done. by left.
Qed.

Lemma forallb_false_at {A} (ok ok' : A -> bool) (l : list A) (x : A) :
  x ∈ l -> ok' x = false -> (forall y, ok y = true -> ok' y = true) -> forallb ok l = false.
Proof.
  intros Hx Hok Himp. destruct (forallb ok l) eqn:Hall; [|reflexivity].
  rewrite forallb_forall in Hall. apply list_elem_of_In in Hx.
  specialize (Himp x (Hall x Hx)). congruence.
Qed.

Lemma elem_of_flat_map_at {A} (miss : A -> list string) (l : list A) (x : A) (k : string) :
  x ∈ l -> k ∈ miss x -> k ∈ flat_map miss l.
Proof.
  intros Hx Hk. apply list_elem_of_In, in_flat_map. exists x.
  split; by apply list_elem_of_In.
Qed.

Lemma asset_step_cases {V} (key : string) (fld : Asset.t -> option V)
    (d : gmap string V) (x : Asset.t) :
  (forall a, missing key (fld a) ⊆ asset_missing a) ->
  if present (Asset.asset_id x) && present (fld x)
  then exists d', (k ← getitem "asset_id" (Asset.asset_id x);
                   v ← getitem key (fld x); Ok (<[k := v]> d)) = Ok d'
  else exists k, k ∈ asset_missing x /\
                 (k ← getitem "asset_id" (Asset.asset_id x);
                  v ← getitem key (fld x); Ok (<[k := v]> d)) = Raise (KeyError k).
Proof.
  intros Hsub. specialize (Hsub x). unfold asset_missing in *.
  destruct (Asset.asset_id x) as [i|] eqn:Hi; cbn.
  - destruct (fld x) as [v|]; cbn; [eauto|].
    exists key. split; [|reflexivity]. apply Hsub. cbn. by left.
  - exists "asset_id". split; [|reflexivity]. cbn. by left.
Qed.

(** Either every entry carries all its fields and the parser succeeds, or
    it raises [KeyError] for a field that some entry lacks. *)
Lemma parse_cases (input_data : Input.t) :
  (well_formed input_data = true /\ exists env, parse input_data = Ok env) \/
  (well_formed input_data = false /\
   exists k, k ∈ missing_keys input_data /\ parse input_data = Raise (KeyError k)).
Proof.
  unfold parse, dict_comp, well_formed, missing_keys.
  set (assets := get_list (Input.assets input_data)).
  set (accounts := get_list (Input.accounts input_data)).
  set (hm := get_list (Input.haircut_matrix input_data)).
  set (lm := get_list (Input.limit_matrix input_data)).
  assert (Hbad_asset : forall ok x k, x ∈ assets -> ok x = false ->
            (forall y, asset_ok y = true -> ok y = true) -> k ∈ asset_missing x ->
            forallb asset_ok assets && forallb account_ok accounts
              && forallb haircut_ok hm && forallb limit_ok lm = false /\
            k ∈ flat_map asset_missing assets ++ flat_map account_missing accounts
                ++ flat_map haircut_missing hm ++ flat_map limit_missing lm).
  { intros ok x k Hx Hok Himp Hk. split.
    - by rewrite (forallb_false_at asset_ok ok assets x).
    - apply elem_of_app. left. by eapply elem_of_flat_map_at. }
  (* I *)
  destruct (mapM_cases (fun asset => getitem "asset_id" (Asset.asset_id asset))
              (fun a => present (Asset.asset_id a)) asset_missing assets)
    as [[H1 [I ->]]|(x & k & Hx & Hok & Hk & ->)].
  { intros a. unfold asset_missing. destruct (Asset.asset_id a); cbn; [eauto|].
    exists "asset_id". split; [by left | reflexivity]. }
  2:{ right. destruct (Hbad_asset (fun a => present (Asset.asset_id a)) x k Hx Hok) as [Hwf Hin];
        [intros y; unfold asset_ok; by destruct (Asset.asset_id y) | exact Hk |].
      split; [exact Hwf|]. eauto. }
  rewrite bind_Ok.
  (* Q_i *)
  destruct (foldM_cases
              (fun d x => k ← getitem "asset_id" (Asset.asset_id x);
                          v ← getitem "available_quantity" (Asset.available_quantity x);
                          Ok (<[k := v]> d))
              (fun a => present (Asset.asset_id a) && present (Asset.available_quantity a))
              asset_missing assets (∅ : gmap string Qc))
    as [[H2 [Q_i ->]]|(x & k & Hx & Hok & Hk & ->)].
  { intros d a. apply asset_step_cases. intros a'. unfold asset_missing.
    intros k'. rewrite !elem_of_app. tauto. }
  2:{ right. destruct (Hbad_asset (fun a => present (Asset.asset_id a) && present (Asset.available_quantity a)) x k Hx Hok) as [Hwf Hin];
        [intros y; unfold asset_ok; by destruct (Asset.asset_id y), (Asset.available_quantity y) | exact Hk |].
      split; [exact Hwf|]. eauto. }
  rewrite bind_Ok.
  (* V_i *)
  destruct (foldM_cases
              (fun d x => k ← getitem "asset_id" (Asset.asset_id x);
                          v ← getitem "market_value" (Asset.market_value x);
                          Ok (<[k := v]> d))
              (fun a => present (Asset.asset_id a) && present (Asset.market_value a))
              asset_missing assets (∅ : gmap string Qc))
    as [[H3 [V_i ->]]|(x & k & Hx & Hok & Hk & ->)].
  { intros d a. apply asset_step_cases. intros a'. unfold asset_missing.
    intros k'. rewrite !elem_of_app. tauto. }
  2:{ right. destruct (Hbad_asset (fun a => present (Asset.asset_id a) && present (Asset.market_value a)) x k Hx Hok) as [Hwf Hin];
        [intros y; unfold asset_ok; by destruct (Asset.asset_id y), (Asset.available_quantity y), (Asset.market_value y) | exact Hk |].
      split; [exact Hwf|]. eauto. }
  rewrite bind_Ok.
  (* omega_i *)
  destruct (foldM_cases
              (fun d x => k ← getitem "asset_id" (Asset.asset_id x);
                          v ← getitem "tier_rating" (Asset.tier_rating x);
                          Ok (<[k := v]> d))
              (fun a => present (Asset.asset_id a) && present (Asset.tier_rating a))
              asset_missing assets (∅ : gmap string Qc))
    as [[H4 [omega_i ->]]|(x & k & Hx & Hok & Hk & ->)].
  { intros d a. apply asset_step_cases. intros a'. unfold asset_missing.
    intros k'. rewrite !elem_of_app. tauto. }
  2:{ right. destruct (Hbad_asset (fun a => present (Asset.asset_id a) && present (Asset.tier_rating a)) x k Hx Hok) as [Hwf Hin];
        [intros y; unfold asset_ok; by destruct (Asset.asset_id y), (Asset.available_quantity y),
             (Asset.market_value y), (Asset.tier_rating y) | exact Hk |].
      split; [exact Hwf|]. eauto. }
  rewrite bind_Ok.
  assert (Hassets : forallb asset_ok assets = true).
  { rewrite forallb_forall in H2, H3, H4 |- *. intros a Ha.
    specialize (H2 a Ha). specialize (H3 a Ha). specialize (H4 a Ha).
    unfold asset_ok. revert H2 H3 H4.
    by destruct (Asset.asset_id a), (Asset.available_quantity a),
         (Asset.market_value a), (Asset.tier_rating a). }
  rewrite Hassets. clear Hbad_asset. cbn [andb].
  (* J *)
  destruct (mapM_cases (fun account => getitem "account_id" (Account.account_id account))
              (fun a => present (Account.account_id a)) account_missing accounts)
    as [[H5 [J ->]]|(x & k & Hx & Hok & Hk & ->)].
  { intros a. unfold account_missing. destruct (Account.account_id a); cbn; [eauto|].
    exists "account_id". split; [by left | reflexivity]. }
  2:{ right. split.
      - rewrite (forallb_false_at account_ok (fun a => present (Account.account_id a))
                   accounts x Hx Hok); [reflexivity|].
        unfold account_ok. intros y. by destruct (Account.account_id y).
      - exists k. split; [|reflexivity]. rewrite !elem_of_app. right. left.
        by eapply elem_of_flat_map_at. }
  rewrite bind_Ok.
  (* C_j *)
  destruct (foldM_cases
              (fun d x => k ← getitem "account_id" (Account.account_id x);
                          v ← getitem "collateral_requirement"
                                (Account.collateral_requirement x);
                          Ok (<[k := v]> d))
              account_ok account_missing accounts (∅ : gmap string Qc))
    as [[H6 [C_j ->]]|(x & k & Hx & Hok & Hk & ->)].
  { intros d a. unfold account_ok, account_missing.
    destruct (Account.account_id a); cbn.
    - destruct (Account.collateral_requirement a); cbn; [eauto|].
      exists "collateral_requirement". split; [by left | reflexivity].
    - exists "account_id". split; [by left | reflexivity]. }
  2:{ right. split.
      - by rewrite (forallb_false_at account_ok account_ok accounts x Hx Hok).
      - exists k. split; [|reflexivity]. rewrite !elem_of_app. right. left.
        by eapply elem_of_flat_map_at. }
  rewrite bind_Ok, H6. cbn [andb].
  (* H_ij *)
  destruct (foldM_cases haircut_step haircut_ok haircut_missing hm ∅)
    as [[H7 [H_ij ->]]|(x & k & Hx & Hok & Hk & ->)].
  { intros d e. unfold haircut_step, haircut_ok, haircut_missing.
    destruct (HaircutEntry.asset_id e); cbn.
    - destruct (HaircutEntry.account_id e); cbn.
      + destruct (HaircutEntry.haircut e); cbn; [eauto|].
        exists "haircut". split; [by left | reflexivity].
      + exists "account_id". split; [by left | reflexivity].
    - exists "asset_id". split; [by left | reflexivity]. }
  2:{ right. split.
      - by rewrite (forallb_false_at haircut_ok haircut_ok hm x Hx Hok).
      - exists k. split; [|reflexivity]. rewrite !elem_of_app. right. right. left.
        by eapply elem_of_flat_map_at. }
  rewrite bind_Ok, H7. cbn [andb].
  (* L_ij *)
  destruct (foldM_cases limit_step limit_ok limit_missing lm ∅)
    as [[H8 [L_ij ->]]|(x & k & Hx & Hok & Hk & ->)].
  { intros d e. unfold limit_step, limit_ok, limit_missing.
    destruct (LimitEntry.asset_id e); cbn.
    - destruct (LimitEntry.account_id e); cbn.
      + destruct (LimitEntry.max_allocation e); cbn; [eauto|].
        exists "max_allocation". split; [by left | reflexivity].
      + exists "account_id". split; [by left | reflexivity].
    - exists "asset_id". split; [by left | reflexivity]. }
  2:{ right. split.
      - by rewrite (forallb_false_at limit_ok limit_ok lm x Hx Hok).
      - exists k. split; [|reflexivity]. rewrite !elem_of_app. right. right. right.
        by eapply elem_of_flat_map_at. }
  rewrite bind_Ok, H8. left. eauto.
Qed.

(** ** The sparse tables *)

Lemma parse_Ok_inv (input_data : Input.t) (env : Env.t) :
  parse input_data = Ok env ->
  mapM (fun asset => getitem "asset_id" (Asset.asset_id asset))
       (get_list (Input.assets input_data)) = Ok (Env.I env) /\
  mapM (fun account => getitem "account_id" (Account.account_id account))
       (get_list (Input.accounts input_data)) = Ok (Env.J env) /\
  foldM haircut_step ∅ (get_list (Input.haircut_matrix input_data)) = Ok (Env.H_ij env) /\
  foldM limit_step ∅ (get_list (Input.limit_matrix input_data)) = Ok (Env.L_ij env).
Proof.
  unfold parse. intros H.
  apply bind_Ok_inv in H as (I & HI & H).
  apply bind_Ok_inv in H as (Q_i & HQ & H).
  apply bind_Ok_inv in H as (V_i & HV & H).
  apply bind_Ok_inv in H as (omega_i & Hw & H).
  apply bind_Ok_inv in H as (J & HJ & H).
  apply bind_Ok_inv in H as (C_j & HC & H).
  apply bind_Ok_inv in H as (H_ij & HH & H).
  apply bind_Ok_inv in H as (L_ij & HL & H).
  by inversion H; subst.
Qed.

Lemma haircut_step_full (d : gmap (string * string) Qc) (i j : string) (h : Qc) :
  haircut_step d (HaircutEntry.mk (Some i) (Some j) (Some h)) = Ok (<[(i, j) := h]> d).
Proof. reflexivity. Qed.

Lemma limit_step_full (d : gmap (string * string) Qc) (i j : string) (m : Qc) :
  limit_step d (LimitEntry.mk (Some i) (Some j) (Some m)) = Ok (<[(i, j) := m]> d).
Proof. reflexivity. Qed.

(** Entries stored under other keys leave the value at [k] alone. *)
Lemma haircut_fold_keeps (l : list HaircutEntry.t) (d d' : gmap (string * string) Qc)
    (k : string * string) :
  (forall e, e ∈ l -> haircut_key e ≠ Some k) ->
  foldM haircut_step d l = Ok d' -> d' !! k = d !! k.
Proof.
  revert d. induction l as [|e l IH]; intros d Hl Hd; cbn [foldM] in Hd.
  - by inversion Hd.
  - apply bind_Ok_inv in Hd as (d1 & Hstep & Hd).
    rewrite (IH d1); [| intros e' He'; apply Hl; by right | done].
    assert (He : haircut_key e ≠ Some k) by (apply Hl; by left).
    unfold haircut_step, haircut_key in *.
    destruct (HaircutEntry.asset_id e) as [i|]; [|discriminate].
    destruct (HaircutEntry.account_id e) as [j|]; [|discriminate].
    destruct (HaircutEntry.haircut e) as [h|]; [|discriminate].
    cbn in Hstep, He. inversion Hstep; subst.
    apply lookup_insert_ne. congruence.
Qed.

Lemma limit_fold_keeps (l : list LimitEntry.t) (d d' : gmap (string * string) Qc)
    (k : string * string) :
  (forall e, e ∈ l -> limit_key e ≠ Some k) ->
  foldM limit_step d l = Ok d' -> d' !! k = d !! k.
Proof.
  revert d. induction l as [|e l IH]; intros d Hl Hd; cbn [foldM] in Hd.
  - by inversion Hd.
  - apply bind_Ok_inv in Hd as (d1 & Hstep & Hd).
    rewrite (IH d1); [| intros e' He'; apply Hl; by right | done].
    assert (He : limit_key e ≠ Some k) by (apply Hl; by left).
    unfold limit_step, limit_key in *.
    destruct (LimitEntry.asset_id e) as [i|]; [|discriminate].
    destruct (LimitEntry.account_id e) as [j|]; [|discriminate].
    destruct (LimitEntry.max_allocation e) as [m|]; [|discriminate].
    cbn in Hstep, He. inversion Hstep; subst.
    apply lookup_insert_ne. congruence.
Qed.



(** The construction reads the two sparse tables at the pairs of [I x J]
    and nowhere else. *)
Lemma build_model_tables_ext (pulp : PuLP.t) (I J : list string)
    (Q V w C : gmap string Qc) (H H' L L' : gmap (string * string) Qc) :
  (forall i j, i ∈ I -> j ∈ J -> dict_get H' (i, j) 1%Qc = dict_get H (i, j) 1%Qc) ->
  (forall i j, i ∈ I -> j ∈ J -> L' !! (i, j) = L !! (i, j)) ->
  build_model pulp (Env.mk I Q V w J C H' L') = build_model pulp (Env.mk I Q V w J C H L).
Proof.
  intros HH HL. unfold build_model. cbn [Env.I Env.J].
  set (Q_vars := LpVariable_dicts (pairs I J) (Some 0%Qc) LpContinuous).
  assert (objective_terms (Env.mk I Q V w J C H' L') Q_vars
          = objective_terms (Env.mk I Q V w J C H L) Q_vars) as ->.
  { unfold objective_terms. cbn [Env.I Env.J Env.omega_i Env.V_i Env.H_ij].
    f_equal. apply mapM_ext_in. intros [i j] Hij.
    apply elem_of_pairs in Hij as [Hi Hj]. by rewrite HH. }
  destruct (objective_terms _ Q_vars) as [e|ex]; [|reflexivity].
  rewrite !bind_Ok. f_equal.
  unfold build_constraints. cbn [Env.I Env.J].
  rewrite (foldM_ext_in
             (fun prob j => c ← collateral_requirement (Env.mk I Q V w J C H' L') Q_vars j;
                            add_constraint prob c)
             (fun prob j => c ← collateral_requirement (Env.mk I Q V w J C H L) Q_vars j;
                            add_constraint prob c)).
  2:{ intros prob j Hj. f_equal. unfold collateral_requirement.
      cbn [Env.I Env.V_i Env.H_ij Env.C_j]. f_equal. apply mapM_ext_in.
      intros i Hi. by rewrite HH. }
  destruct (foldM _ _ J) as [p1|ex]; [|reflexivity]. rewrite !bind_Ok.
  destruct (foldM _ p1 I) as [p2|ex]; [|reflexivity]. rewrite !bind_Ok.
  apply foldM_ext_in. intros prob i Hi. apply foldM_ext_in. intros prob' j Hj.
  f_equal. unfold allocation_limit. cbn [Env.V_i Env.L_ij]. by rewrite HL.
Qed.

(** ** The families of constraints *)

Lemma filter_map_all {A B} (p : B -> bool) (g : A -> B) (l : list A) :
  (forall x, p (g x) = true) -> List.filter p (map g l) = map g l.
Proof.
  intros Hp. induction l as [|x l IH]; [reflexivity|].
  cbn. by rewrite Hp, IH.
Qed.

Lemma filter_map_none {A B} (p : B -> bool) (g : A -> B) (l : list A) :
  (forall x, p (g x) = false) -> List.filter p (map g l) = [].
Proof.
  intros Hp. induction l as [|x l IH]; [reflexivity|].
  cbn. by rewrite Hp, IH.
Qed.

Lemma prefix_append (s t : string) : String.prefix s (s +:+ t) = true.
Proof.
  induction s as [|a s IH]; simpl.
  - by destruct t.
  - destruct (Ascii.ascii_dec a a); [apply IH | done].
Qed.

Lemma filter_collateral (env : Env.t) :
  List.filter is_collateral_requirement (constraints (model_of env))
  = map (collateral_row env) (Env.J env).
Proof.
  unfold model_of. cbn [constraints]. rewrite !List.filter_app.
  rewrite filter_map_all by (intros j; apply prefix_append).
  rewrite !filter_map_none by reflexivity.
  by rewrite !app_nil_r.
Qed.

Lemma filter_inventory (env : Env.t) :
  List.filter is_asset_quantity_limit (constraints (model_of env))
  = map (inventory_row env) (Env.I env).
Proof.
  unfold model_of. cbn [constraints]. rewrite !List.filter_app.
  rewrite (filter_map_all _ (inventory_row env)) by (intros i; apply prefix_append).
  rewrite !filter_map_none by reflexivity.
  by rewrite app_nil_r.
Qed.

Lemma filter_caps (env : Env.t) :
  List.filter is_allocation_limit (constraints (model_of env))
  = map (cap_row env) (pairs (Env.I env) (Env.J env)).
Proof.
  unfold model_of. cbn [constraints]. rewrite !List.filter_app.
  rewrite (filter_map_all _ (cap_row env)) by (intros ix; apply prefix_append).
  rewrite !filter_map_none by reflexivity.
  reflexivity.
Qed.


(** * The claims *)

(** C1.  The claim: a pair without an entry in [limit_matrix] gets no cap
    constraint, and no constraint with a right-hand side of +infinity is
    ever formed.  The code at scenario A, which has no limit at all: line
    86 forms the cap of (A1, Acc1) with [float('inf')] on its right.  A
    PuLP that refuses such a bound raises there, so the call fails
    whatever the solver; a PuLP that accepts it hands the solver the
    constraint with +infinity on its right. *)
Theorem C1_infinite_cap_on_scenario_A :
  Input.limit_matrix scenario_A = None /\
  (forall msg cbc params,
     build_lp (PuLP.RefusesInfinity msg) scenario_A = Raise (PulpError msg) /\
     run (PuLP.RefusesInfinity msg) cbc scenario_A params = Raise (PulpError msg)) /\
  exists prob c,
    build_lp PuLP.AcceptsInfinity scenario_A = Ok prob /\ c ∈ constraints prob /\
    cname c = "Allocation_Limit_Asset_A1_Account_Acc1" /\
    expr c = [(Qvar ("A1", "Acc1"), qz 1)] /\
    csense c = LpConstraintLE /\
    rhs c = PlusInf.
Proof.
  split; [reflexivity|]. split; [intros msg cbc params; split; reflexivity|].
  exists (model_of scenario_A_env), (cap_row scenario_A_env ("A1", "Acc1")).
  split; [reflexivity|]. split; [|by repeat split].
  unfold model_of. cbn [constraints]. rewrite !elem_of_app. right. right.
  apply list_elem_of_fmap. exists ("A1", "Acc1"). split; [reflexivity|].
  apply elem_of_pairs. cbn. split; by apply list_elem_of_singleton.
Qed.




(** C3.  The claim: on an optimal outcome the cost returned is the sum of
    [tier_rating[i] * Q[i,j] * market_value[i] * haircut(i,j)] over the
    returned allocation matrix.  The code on an asset of tier 0, with a
    solver that allocates 50 units: the objective has no term, so
    [value(prob.objective)] is [None] after the solve, and the call
    returns the quantity 50 with no cost, where the sum is 0. *)
Theorem C3_no_cost_at_tier_zero (pulp : PuLP.t) :
  run pulp (answers LpStatusOptimal (qz 50)) zero_tier None
    = Ok (Output.mk [Allocation.mk "A1" "Acc1" (Some (qz 50))] None None) /\
  recompute_cost zero_tier_env [Allocation.mk "A1" "Acc1" (Some (qz 50))] = Some 0%Qc /\
  parse zero_tier = Ok zero_tier_env.
Proof. destruct pulp; repeat split; reflexivity. Qed.

(** C4, as the code has it.  The claim says that small negative quantities
    are clamped to zero.  The code clamps nothing: for every optimal
    outcome the allocation matrix lists, pair by pair in the order of
    [I x J], the value the solver left in the variable, unchanged. *)
Theorem C4_quantities_passed_through (pulp : PuLP.t) (cbc : Solver)
    (input_data : Input.t) (params : option SolverParams) (env : Env.t)
    (prob : LpProblem) (sol : Solution) :
  parse input_data = Ok env ->
  build_lp pulp input_data = Ok prob ->
  chosen_solver cbc params prob = Ok sol ->
  status sol = LpStatusOptimal ->
  exists out,
    run pulp cbc input_data params = Ok out /\
    Output.allocation_matrix out =
      map (fun ix => Allocation.mk ix.1 ix.2 (varValue sol !! ix))
          (pairs (Env.I env) (Env.J env)).
Proof.
  intros Hp Hb Hs Hst.
  eexists. split; [by eapply run_optimal | reflexivity].
Qed.

Lemma C4_witness :
  parse capped_A = Ok capped_A_env /\
  build_lp strict capped_A = Ok (model_of capped_A_env) /\
  chosen_solver (answers LpStatusOptimal tiny_negative) None (model_of capped_A_env)
    = Ok (mkSolution LpStatusOptimal {[ ("A1", "Acc1") := tiny_negative ]}) /\
  exists out,
    run strict (answers LpStatusOptimal tiny_negative) capped_A None = Ok out /\
    Output.allocation_matrix out =
      map (fun ix => Allocation.mk ix.1 ix.2
                       (({[ ("A1", "Acc1") := tiny_negative ]} : gmap _ Qc) !! ix))
          (pairs (Env.I capped_A_env) (Env.J capped_A_env)).
Proof.
  split; [reflexivity|]. split; [reflexivity|]. split; [reflexivity|].
  exact (C4_quantities_passed_through strict (answers LpStatusOptimal tiny_negative)
           capped_A None capped_A_env
           (model_of capped_A_env)
           (mkSolution LpStatusOptimal {[ ("A1", "Acc1") := tiny_negative ]})
           eq_refl eq_refl eq_refl eq_refl).
Defined.

(** C4 fails when the solver leaves -1/10^9 in the variable of scenario A
    (given a limit, so that every PuLP builds the problem): the quantity
    comes back as it is, negative, not as zero. *)
Lemma C4_counterexample :
  (tiny_negative < 0)%Qc /\
  exists out,
    run strict (answers LpStatusOptimal tiny_negative) capped_A None = Ok out /\
    Output.allocation_matrix out = [Allocation.mk "A1" "Acc1" (Some tiny_negative)] /\
    Some tiny_negative ≠ Some 0%Qc.
Proof.
  split; [reflexivity|]. eexists. split; [reflexivity|]. split; [reflexivity|].
  discriminate.
Qed.

(** C5, as the code has it.  The claim says that a solver error never
    gives the result that infeasibility gives.  The code tells the two
    apart only when the solver raises: an exception raised by the solver
    reaches the caller as it is, while every status other than optimal that
    the solver reports, "not solved" and "undefined" as much as
    "infeasible", gives the same "No optimal solution found." result. *)
Theorem C5_raise_propagates_status_is_reported (pulp : PuLP.t) (cbc : Solver)
    (input_data : Input.t) (params : option SolverParams) (env : Env.t)
    (prob : LpProblem) :
  parse input_data = Ok env ->
  build_lp pulp input_data = Ok prob ->
  (forall e, chosen_solver cbc params prob = Raise e ->
             run pulp cbc input_data params = Raise e) /\
  (forall sol, chosen_solver cbc params prob = Ok sol ->
               status sol ≠ LpStatusOptimal ->
               run pulp cbc input_data params = Ok no_optimal_solution).
Proof.
  intros Hp Hb. split.
  - intros e He. by rewrite (run_eq _ _ _ _ _ _ Hp Hb), He.
  - intros sol Hs Hst. by eapply run_non_optimal.
Qed.

Lemma C5_witness :
  parse capped_A = Ok capped_A_env /\
  build_lp strict capped_A = Ok (model_of capped_A_env) /\
  run strict unavailable capped_A None
    = Raise (PulpSolverError "Pulp: cannot execute cbc") /\
  run strict (answers LpStatusNotSolved 0%Qc) capped_A None = Ok no_optimal_solution.
Proof.
  split; [reflexivity|]. split; [reflexivity|].
  split.
  - apply (C5_raise_propagates_status_is_reported strict unavailable capped_A None
             capped_A_env (model_of capped_A_env)); reflexivity.
  - apply (proj2 (C5_raise_propagates_status_is_reported strict
                    (answers LpStatusNotSolved 0%Qc) capped_A None
                    capped_A_env (model_of capped_A_env) eq_refl eq_refl)
             (mkSolution LpStatusNotSolved {[ ("A1", "Acc1") := 0%Qc ]}));
      [reflexivity | discriminate].
Defined.

(** C5 fails when the solver reports the status "undefined", its status
    for a run that ended in an error: the result is the very one returned
    for "infeasible". *)
Lemma C5_counterexample :
  run strict (answers LpStatusUndefined 0%Qc) capped_A None = Ok no_optimal_solution /\
  run strict (answers LpStatusUndefined 0%Qc) capped_A None
    = run strict (answers LpStatusInfeasible 0%Qc) capped_A None.
Proof. split; reflexivity. Qed.

(** C7.  On every status other than optimal, infeasible and unbounded
    included, the call returns a result with an empty allocation matrix, no
    cost and the status string "No optimal solution found.". *)
Theorem C7_non_optimal_is_a_result (pulp : PuLP.t) (cbc : Solver)
    (input_data : Input.t) (params : option SolverParams) (env : Env.t)
    (prob : LpProblem) (sol : Solution) :
  parse input_data = Ok env ->
  build_lp pulp input_data = Ok prob ->
  chosen_solver cbc params prob = Ok sol ->
  status sol ≠ LpStatusOptimal ->
  exists out,
    run pulp cbc input_data params = Ok out /\
    Output.allocation_matrix out = [] /\
    Output.total_collateral_cost out = None /\
    Output.status out = Some "No optimal solution found.".
Proof.
  intros Hp Hb Hs Hst.
  exists no_optimal_solution. split; [by eapply run_non_optimal | done].
Qed.

Lemma C7_witness :
  parse capped_A = Ok capped_A_env /\
  build_lp strict capped_A = Ok (model_of capped_A_env) /\
  chosen_solver (answers LpStatusUnbounded 0%Qc) None (model_of capped_A_env)
    = Ok (mkSolution LpStatusUnbounded {[ ("A1", "Acc1") := 0%Qc ]}) /\
  LpStatusUnbounded ≠ LpStatusOptimal /\
  exists out,
    run strict (answers LpStatusUnbounded 0%Qc) capped_A None = Ok out /\
    Output.allocation_matrix out = [] /\
    Output.total_collateral_cost out = None /\
    Output.status out = Some "No optimal solution found.".
Proof.
  split; [reflexivity|]. split; [reflexivity|]. split; [reflexivity|].
  split; [discriminate|].
  apply (C7_non_optimal_is_a_result strict (answers LpStatusUnbounded 0%Qc)
           capped_A None capped_A_env
           (model_of capped_A_env)
           (mkSolution LpStatusUnbounded {[ ("A1", "Acc1") := 0%Qc ]}));
    [reflexivity | reflexivity | reflexivity | discriminate].
Defined.

(** C6, as the code has it.  The claim says that negative numbers, missing
    fields and entries naming unknown ids all make the call fail before the
    model is built, with an error that names what is invalid.  The code
    checks nothing but the presence of the fields it reads: when some
    asset, account, haircut or limit entry lacks one of its fields, the
    call raises [KeyError] for a field that is lacking, before any model is
    built and whatever the solver; when every entry carries all its
    fields, the parser accepts the input whatever its values. *)
Theorem C6_only_missing_fields_raise (input_data : Input.t) :
  if well_formed input_data
  then exists env, parse input_data = Ok env
  else exists k,
         k ∈ missing_keys input_data /\
         parse input_data = Raise (KeyError k) /\
         forall pulp cbc params, run pulp cbc input_data params = Raise (KeyError k).
Proof.
  destruct (parse_cases input_data) as [[-> [env Hp]]|[-> (k & Hk & Hp)]].
  - by exists env.
  - exists k. repeat split; try done. intros pulp cbc params. by apply run_parse_raise.
Qed.

(** An asset without [market_value]: the call raises before the model is
    built, whatever the solver. *)
Example run_no_market_value (pulp : PuLP.t) (cbc : Solver)
    (params : option SolverParams) :
  well_formed no_market_value = false /\
  run pulp cbc no_market_value params = Raise (KeyError "market_value").
Proof. split; reflexivity. Qed.

(** C6 fails on an asset priced at -1: the input is accepted and the model
    is built, by every PuLP, with the negative price in its objective.  It
    fails as well on a haircut for an asset that does not exist: the entry
    is not reported, and the model is the one built without it.  And an
    input with none of its four sequences is read as one with four empty
    sequences. *)
Lemma C6_counterexample :
  (qz (-1) < 0)%Qc /\
  (forall pulp, exists prob,
     build_lp pulp negative_value = Ok prob /\
     objective prob = [(Qvar ("A1", "Acc1"), qz (-1))]) /\
  (forall pulp,
     build_lp pulp capped_unknown_asset = build_lp pulp capped_A /\
     exists prob, build_lp pulp capped_A = Ok prob) /\
  (forall pulp, build_lp pulp bare = Ok (new_problem "Collateral_Optimization" LpMinimize)).
Proof.
  split; [reflexivity|]. split; [|split].
  - intros pulp. eexists. destruct pulp; split; reflexivity.
  - intros pulp. destruct pulp; (split; [reflexivity | eexists; reflexivity]).
  - intros pulp. by destruct pulp.
Qed.






(** C10.  When the haircut table, or the limit table, has several entries
    for one pair, the parser raises nothing and the entry that comes last
    is the one the model uses. *)
Theorem C10_last_entry_wins (input_data : Input.t) :
  well_formed input_data = true ->
  exists env,
    parse input_data = Ok env /\
    (forall l1 l2 i j h,
       get_list (Input.haircut_matrix input_data)
         = l1 ++ HaircutEntry.mk (Some i) (Some j) (Some h) :: l2 ->
       (forall e, e ∈ l2 -> haircut_key e ≠ Some (i, j)) ->
       Env.H_ij env !! (i, j) = Some h /\ haircut env i j = h) /\
    (forall l1 l2 i j m,
       get_list (Input.limit_matrix input_data)
         = l1 ++ LimitEntry.mk (Some i) (Some j) (Some m) :: l2 ->
       (forall e, e ∈ l2 -> limit_key e ≠ Some (i, j)) ->
       Env.L_ij env !! (i, j) = Some m /\ limit env i j = Finite m).
Proof.
  intros Hwf. destruct (parse_cases input_data) as [[_ [env Hp]]|[Hwf' _]];
    [|congruence].
  exists env. split; [done|].
  destruct (parse_Ok_inv _ _ Hp) as (_ & _ & HH & HL). split.
  - intros l1 l2 i j h Hhm Hl2. rewrite Hhm, foldM_app in HH.
    apply bind_Ok_inv in HH as (d1 & _ & HH). cbn [foldM] in HH.
    rewrite haircut_step_full, bind_Ok in HH.
    assert (Hlook : Env.H_ij env !! (i, j) = Some h).
    { rewrite (haircut_fold_keeps _ _ _ (i, j) Hl2 HH). apply lookup_insert_eq. }
    split; [done|]. unfold haircut, dict_get. by rewrite Hlook.
  - intros l1 l2 i j m Hlm Hl2. rewrite Hlm, foldM_app in HL.
    apply bind_Ok_inv in HL as (d1 & _ & HL). cbn [foldM] in HL.
    rewrite limit_step_full, bind_Ok in HL.
    assert (Hlook : Env.L_ij env !! (i, j) = Some m).
    { rewrite (limit_fold_keeps _ _ _ (i, j) Hl2 HL). apply lookup_insert_eq. }
    split; [done|]. unfold limit. by rewrite Hlook.
Qed.

Lemma C10_witness :
  well_formed twice = true /\
  exists env,
    parse twice = Ok env /\
    Env.H_ij env !! ("A1", "Acc1") = Some (Q2Qc (1 # 2)) /\
    haircut env "A1" "Acc1" = Q2Qc (1 # 2) /\
    Env.L_ij env !! ("A1", "Acc1") = Some (qz 80) /\
    limit env "A1" "Acc1" = Finite (qz 80).
Proof.
  split; [reflexivity|].
  destruct (C10_last_entry_wins twice eq_refl) as (env & Hp & Hh & Hl).
  exists env. split; [exact Hp|].
  destruct (Hh [HaircutEntry.mk (Some "A1") (Some "Acc1") (Some (qz 1))] []
               "A1" "Acc1" (Q2Qc (1 # 2)) eq_refl) as [Hh1 Hh2].
  { intros e He. by apply elem_of_nil in He. }
  destruct (Hl [LimitEntry.mk (Some "A1") (Some "Acc1") (Some (qz 10))] []
               "A1" "Acc1" (qz 80) eq_refl) as [Hl1 Hl2].
  { intros e He. by apply elem_of_nil in He. }
  repeat split; assumption.
Defined.

(** * Further properties of [run] *)

(** ** The variables and the shape of the problem *)

Lemma LpVariable_dicts_lookup_None (indices : list (string * string))
    (lb : option Qc) (c : LpCategory) (ix : string * string) :
  ix ∉ indices -> LpVariable_dicts indices lb c !! ix = None.
Proof.
  unfold LpVariable_dicts.
  assert (forall d : gmap (string * string) LpVariable,
            ix ∉ indices -> d !! ix = None ->
            foldl (fun d ix => <[ix := mkLpVariable ix lb None c]> d) d indices !! ix
            = None) as Hgen.
  { induction indices as [|ix' l IH]; intros d Hnotin Hd; cbn [foldl]; [done|].
    apply not_elem_of_cons in Hnotin as [Hne Hnotin].
    apply IH; [done|]. by rewrite lookup_insert_ne. }
  intros Hnotin. by apply Hgen.
Qed.

Lemma length_pairs (I J : list string) : length (pairs I J) = (length I * length J)%nat.
Proof.
  induction I as [|i I IH]; [reflexivity|].
  rewrite pairs_cons, length_app, length_map, IH. reflexivity.
Qed.

(** X1.  [LpVariable.dicts] gives [run] one variable for each pair of
    [I x J] and none for any other pair; each has lower bound 0, no upper
    bound, and is continuous. *)
Theorem X1_one_variable_per_pair (pulp : PuLP.t) (input_data : Input.t) (env : Env.t)
    (Q_vars : gmap (string * string) LpVariable) (prob : LpProblem) :
  parse input_data = Ok env ->
  build_model pulp env = Ok (Q_vars, prob) ->
  forall i j,
    Q_vars !! (i, j) =
      if decide (i ∈ Env.I env /\ j ∈ Env.J env)
      then Some (mkLpVariable (i, j) (Some 0%Qc) None LpContinuous)
      else None.
Proof.
  intros Hp Hb i j.
  destruct (build_model_Ok_inv pulp env (parse_tables_cover _ _ Hp) _ _ Hb) as [-> _].
  unfold Q_vars_of. destruct (decide _) as [Hin|Hout].
  - apply LpVariable_dicts_lookup. by apply elem_of_pairs.
  - apply LpVariable_dicts_lookup_None. by rewrite elem_of_pairs.
Qed.

Lemma X1_witness :
  parse two_by_two = Ok two_by_two_env /\
  build_model strict two_by_two_env
    = Ok (Q_vars_of two_by_two_env, model_of two_by_two_env) /\
  forall i j,
    Q_vars_of two_by_two_env !! (i, j) =
      if decide (i ∈ Env.I two_by_two_env /\ j ∈ Env.J two_by_two_env)
      then Some (mkLpVariable (i, j) (Some 0%Qc) None LpContinuous)
      else None.
Proof.
  split; [reflexivity|]. split; [reflexivity|].
  exact (X1_one_variable_per_pair strict two_by_two two_by_two_env
           (Q_vars_of two_by_two_env) (model_of two_by_two_env) eq_refl eq_refl).
Defined.

Lemma elem_of_objective_term (env : Env.t) (ix : string * string) (t : LpVariable * Qc) :
  t ∈ objective_term env ix -> t.1 = Qvar ix.
Proof.
  unfold objective_term. destruct (decide _); intros Ht.
  - by apply elem_of_nil in Ht.
  - by apply list_elem_of_singleton in Ht as ->.
Qed.

Lemma elem_of_requirement_term (env : Env.t) (i j : string) (t : LpVariable * Qc) :
  t ∈ requirement_term env j i -> t.1 = Qvar (i, j).
Proof.
  unfold requirement_term. destruct (decide _); intros Ht.
  - by apply elem_of_nil in Ht.
  - by apply list_elem_of_singleton in Ht as ->.
Qed.

Lemma elem_of_flat_map {A B} (f : A -> list B) (l : list A) (y : B) :
  y ∈ flat_map f l <-> exists x, x ∈ l /\ y ∈ f x.
Proof.
  rewrite list_elem_of_In, in_flat_map. split.
  - intros (x & Hx & Hy). exists x. by rewrite !list_elem_of_In.
  - intros (x & Hx & Hy). exists x. by rewrite <- !list_elem_of_In.
Qed.

(** X2.  The problem never mentions a variable other than those of the
    dictionary: every term of the objective and of every constraint is on
    the variable of a pair of [I x J], which has lower bound 0 and no upper
    bound. *)
Theorem X2_only_dictionary_variables (pulp : PuLP.t) (input_data : Input.t)
    (env : Env.t) (prob : LpProblem) (t : LpVariable * Qc) :
  parse input_data = Ok env ->
  build_lp pulp input_data = Ok prob ->
  t ∈ objective prob \/ (exists c, c ∈ constraints prob /\ t ∈ expr c) ->
  exists i j,
    i ∈ Env.I env /\ j ∈ Env.J env /\
    t.1 = mkLpVariable (i, j) (Some 0%Qc) None LpContinuous.
Proof.
  intros Hp Hb Ht. destruct (build_lp_parse _ _ _ _ Hp Hb) as [_ ->].
  unfold model_of in Ht. cbn [objective constraints] in Ht.
  destruct Ht as [Ht|(c & Hc & Ht)].
  - unfold objective_row in Ht. apply elem_of_flat_map in Ht as ([i j] & Hij & Ht).
    apply elem_of_pairs in Hij as [Hi Hj]. exists i, j.
    by rewrite (elem_of_objective_term _ _ _ Ht).
  - rewrite !elem_of_app in Hc. destruct Hc as [Hc|[Hc|Hc]].
    + apply list_elem_of_fmap in Hc as (j & -> & Hj). cbn in Ht.
      apply elem_of_flat_map in Ht as (i & Hi & Ht). exists i, j.
      by rewrite (elem_of_requirement_term _ _ _ _ Ht).
    + apply list_elem_of_fmap in Hc as (i & -> & Hi). cbn in Ht.
      apply list_elem_of_fmap in Ht as (j & -> & Hj). by exists i, j.
    + apply list_elem_of_fmap in Hc as ([i j] & -> & Hij). cbn in Ht.
      apply elem_of_pairs in Hij as [Hi Hj]. unfold cap_term in Ht.
      destruct (decide _); [by apply elem_of_nil in Ht|].
      apply list_elem_of_singleton in Ht as ->. by exists i, j.
Qed.

Lemma X2_witness :
  parse capped_A = Ok capped_A_env /\
  build_lp strict capped_A = Ok (model_of capped_A_env) /\
  exists i j,
    i ∈ Env.I capped_A_env /\ j ∈ Env.J capped_A_env /\
    (Qvar ("A1", "Acc1"), qz 1).1 = mkLpVariable (i, j) (Some 0%Qc) None LpContinuous.
Proof.
  split; [reflexivity|]. split; [reflexivity|].
  apply (X2_only_dictionary_variables strict capped_A capped_A_env
           (model_of capped_A_env) (Qvar ("A1", "Acc1"), qz 1) eq_refl eq_refl).
  left. apply list_elem_of_singleton. reflexivity.
Defined.

(** X3.  The problem is the minimisation "Collateral_Optimization".  Its
    objective runs over the pairs of [I x J], assets outermost: a pair
    whose tier, value and haircut are all different from 0 has the term
    [tier_rating[i] * market_value[i] * haircut(i,j) * Q[i,j]], a pair with
    a factor 0 has no term. *)
Theorem X3_objective (pulp : PuLP.t) (input_data : Input.t) (env : Env.t)
    (prob : LpProblem) :
  parse input_data = Ok env ->
  build_lp pulp input_data = Ok prob ->
  pname prob = "Collateral_Optimization" /\
  psense prob = LpMinimize /\
  objective prob =
    flat_map (fun ix =>
                if decide (tier_rating env ix.1 = 0%Qc \/ market_value env ix.1 = 0%Qc
                           \/ haircut env ix.1 ix.2 = 0%Qc)
                then []
                else [(Qvar ix, (tier_rating env ix.1 * market_value env ix.1
                                 * haircut env ix.1 ix.2)%Qc)])
             (pairs (Env.I env) (Env.J env)).
Proof.
  intros Hp Hb. destruct (build_lp_parse _ _ _ _ Hp Hb) as [_ ->].
  repeat split.
Qed.

Lemma X3_witness :
  parse two_by_two = Ok two_by_two_env /\
  build_lp strict two_by_two = Ok (model_of two_by_two_env) /\
  pname (model_of two_by_two_env) = "Collateral_Optimization" /\
  psense (model_of two_by_two_env) = LpMinimize /\
  objective (model_of two_by_two_env) =
    flat_map (fun ix =>
                if decide (tier_rating two_by_two_env ix.1 = 0%Qc
                           \/ market_value two_by_two_env ix.1 = 0%Qc
                           \/ haircut two_by_two_env ix.1 ix.2 = 0%Qc)
                then []
                else [(Qvar ix, (tier_rating two_by_two_env ix.1
                                 * market_value two_by_two_env ix.1
                                 * haircut two_by_two_env ix.1 ix.2)%Qc)])
             (pairs (Env.I two_by_two_env) (Env.J two_by_two_env)).
Proof.
  split; [reflexivity|]. split; [reflexivity|].
  apply (X3_objective strict two_by_two two_by_two_env (model_of two_by_two_env)
           eq_refl eq_refl).
Defined.

(** X4.  The constraints are added in three blocks: the requirements of
    the accounts in input order, then the inventories of the assets in
    input order, then the caps of the pairs, assets outermost.  For [n]
    assets and [m] accounts that is [m + n + n * m] constraints. *)
Theorem X4_constraint_blocks (pulp : PuLP.t) (input_data : Input.t) (env : Env.t)
    (prob : LpProblem) :
  parse input_data = Ok env ->
  build_lp pulp input_data = Ok prob ->
  constraints prob =
    map (collateral_row env) (Env.J env)
    ++ map (inventory_row env) (Env.I env)
    ++ map (cap_row env) (pairs (Env.I env) (Env.J env)) /\
  length (constraints prob) =
    (length (get_list (Input.accounts input_data))
     + length (get_list (Input.assets input_data))
     + length (get_list (Input.assets input_data))
       * length (get_list (Input.accounts input_data)))%nat.
Proof.
  intros Hp Hb. destruct (build_lp_parse _ _ _ _ Hp Hb) as [_ ->].
  split; [reflexivity|].
  destruct (parse_Ok_inv _ _ Hp) as (HI & HJ & _).
  apply mapM_length in HI, HJ.
  unfold model_of. cbn [constraints].
  rewrite !length_app, !length_map, length_pairs, HI, HJ. lia.
Qed.

Lemma X4_witness :
  parse two_by_two = Ok two_by_two_env /\
  build_lp strict two_by_two = Ok (model_of two_by_two_env) /\
  length (constraints (model_of two_by_two_env)) = 8%nat.
Proof.
  split; [reflexivity|]. split; [reflexivity|].
  apply (X4_constraint_blocks strict two_by_two two_by_two_env (model_of two_by_two_env)
           eq_refl eq_refl).
Defined.

(** ** What the parser reads, and in which order *)

Lemma mapM_getitem_Some {A B} (key : string) (f : A -> option B) (l : list A) (r : list B) :
  mapM (fun x => getitem key (f x)) l = Ok r -> map Some r = map f l.
Proof.
  revert r. induction l as [|x l IH]; intros r H; cbn [mapM] in H.
  - by inversion H.
  - apply bind_Ok_inv in H as (y & Hy & H).
    apply bind_Ok_inv in H as (ys & Hys & H). inversion H; subst.
    cbn. rewrite (IH ys Hys). f_equal.
    unfold getitem in Hy. destruct (f x); by inversion Hy.
Qed.

Lemma parse_ids (input_data : Input.t) (env : Env.t) :
  parse input_data = Ok env ->
  map Some (Env.I env) = map Asset.asset_id (get_list (Input.assets input_data)) /\
  map Some (Env.J env) = map Account.account_id (get_list (Input.accounts input_data)).
Proof.
  intros Hp. destruct (parse_Ok_inv _ _ Hp) as (HI & HJ & _).
  split; by eapply mapM_getitem_Some.
Qed.

(** X5.  [I] and [J] list the ids of the assets and of the accounts in
    input order, repetitions included. *)
Theorem X5_ids_in_input_order (input_data : Input.t) (env : Env.t) :
  parse input_data = Ok env ->
  map Some (Env.I env) = map Asset.asset_id (get_list (Input.assets input_data)) /\
  map Some (Env.J env) = map Account.account_id (get_list (Input.accounts input_data)).
Proof. apply parse_ids. Qed.

Lemma X5_witness :
  parse shared_id = Ok (Env.mk ["A1"; "A1"] {[ "A1" := qz 7 ]} {[ "A1" := qz 3 ]}
                               {[ "A1" := qz 2 ]} ["Acc1"; "Acc1"]
                               {[ "Acc1" := qz 9 ]} ∅ ∅) /\
  map Some ["A1"; "A1"] = map Asset.asset_id (get_list (Input.assets shared_id)) /\
  map Some ["Acc1"; "Acc1"]
    = map Account.account_id (get_list (Input.accounts shared_id)).
Proof.
  split; [reflexivity|].
  exact (X5_ids_in_input_order shared_id _ eq_refl).
Defined.

Lemma parse_Ok_inv_tables (input_data : Input.t) (env : Env.t) :
  parse input_data = Ok env ->
  dict_comp (fun asset => getitem "asset_id" (Asset.asset_id asset))
            (fun asset => getitem "available_quantity" (Asset.available_quantity asset))
            (get_list (Input.assets input_data)) = Ok (Env.Q_i env) /\
  dict_comp (fun asset => getitem "asset_id" (Asset.asset_id asset))
            (fun asset => getitem "market_value" (Asset.market_value asset))
            (get_list (Input.assets input_data)) = Ok (Env.V_i env) /\
  dict_comp (fun asset => getitem "asset_id" (Asset.asset_id asset))
            (fun asset => getitem "tier_rating" (Asset.tier_rating asset))
            (get_list (Input.assets input_data)) = Ok (Env.omega_i env) /\
  dict_comp (fun account => getitem "account_id" (Account.account_id account))
            (fun account => getitem "collateral_requirement"
                              (Account.collateral_requirement account))
            (get_list (Input.accounts input_data)) = Ok (Env.C_j env).
Proof.
  unfold parse. intros H.
  apply bind_Ok_inv in H as (I & HI & H).
  apply bind_Ok_inv in H as (Q_i & HQ & H).
  apply bind_Ok_inv in H as (V_i & HV & H).
  apply bind_Ok_inv in H as (omega_i & Hw & H).
  apply bind_Ok_inv in H as (J & HJ & H).
  apply bind_Ok_inv in H as (C_j & HC & H).
  apply bind_Ok_inv in H as (H_ij & HH & H).
  apply bind_Ok_inv in H as (L_ij & HL & H).
  by inversion H; subst.
Qed.

(** In a dictionary comprehension the last element with a given key
    decides the value stored under it. *)
Lemma dict_comp_last {A V} (key : A -> option string) (val : A -> option V)
    (k1 k2 : string) (l1 l2 : list A) (x : A) (k : string) (v : V)
    (d : gmap string V) :
  key x = Some k -> val x = Some v ->
  (forall y, y ∈ l2 -> key y ≠ Some k) ->
  dict_comp (fun y => getitem k1 (key y)) (fun y => getitem k2 (val y)) (l1 ++ x :: l2)
    = Ok d ->
  d !! k = Some v.
Proof.
  unfold dict_comp. intros Hk Hv Hl2 Hd. rewrite foldM_app in Hd.
  apply bind_Ok_inv in Hd as (d1 & _ & Hd). cbn [foldM] in Hd.
  rewrite Hk, Hv in Hd. cbn [getitem] in Hd. rewrite !bind_Ok in Hd.
  assert (forall l (d0 d' : gmap string V),
            (forall y, y ∈ l -> key y ≠ Some k) ->
            foldM (fun d y => k' ← getitem k1 (key y); v' ← getitem k2 (val y);
                              Ok (<[k' := v']> d)) d0 l = Ok d' ->
            d' !! k = d0 !! k) as Hkeeps.
  { clear. induction l as [|y l IH]; intros d0 d' Hl Hf; cbn [foldM] in Hf.
    - by inversion Hf.
    - apply bind_Ok_inv in Hf as (d1 & Hstep & Hf).
      rewrite (IH d1 d'); [| intros z Hz; apply Hl; by right | done].
      assert (Hy : key y ≠ Some k) by (apply Hl; by left).
      destruct (key y) as [k'|]; [|discriminate].
      destruct (val y) as [v'|]; [|discriminate].
      cbn in Hstep. inversion Hstep; subst.
      apply lookup_insert_ne. congruence. }
  rewrite (Hkeeps l2 _ d Hl2 Hd). apply lookup_insert_eq.
Qed.

(** X6.  Of several assets with one id, the one that comes last in the
    input gives the quantity, the value and the tier the model uses; an
    asset whose id no later asset repeats is read as it is. *)
Theorem X6_last_asset_wins (input_data : Input.t) (env : Env.t)
    (l1 l2 : list Asset.t) (i : string) (q v w : Qc) :
  parse input_data = Ok env ->
  get_list (Input.assets input_data)
    = l1 ++ Asset.mk (Some i) (Some q) (Some v) (Some w) :: l2 ->
  (forall a, a ∈ l2 -> Asset.asset_id a ≠ Some i) ->
  i ∈ Env.I env /\
  available_quantity env i = q /\ market_value env i = v /\ tier_rating env i = w.
Proof.
  intros Hp Has Hl2.
  destruct (parse_Ok_inv_tables _ _ Hp) as (HQ & HV & Hw & _).
  destruct (parse_ids _ _ Hp) as [HI _].
  rewrite Has in HQ, HV, Hw, HI. split.
  - assert (Some i ∈ map Some (Env.I env)) as Hin.
    { rewrite HI, map_app. apply elem_of_app. right. by left. }
    apply list_elem_of_fmap in Hin as (i' & Hi' & Hin). by inversion Hi'; subst.
  - unfold available_quantity, market_value, tier_rating, dict_get.
    rewrite (dict_comp_last Asset.asset_id Asset.available_quantity _ _ _ _
               (Asset.mk (Some i) (Some q) (Some v) (Some w)) i q _ eq_refl eq_refl Hl2 HQ).
    rewrite (dict_comp_last Asset.asset_id Asset.market_value _ _ _ _
               (Asset.mk (Some i) (Some q) (Some v) (Some w)) i v _ eq_refl eq_refl Hl2 HV).
    rewrite (dict_comp_last Asset.asset_id Asset.tier_rating _ _ _ _
               (Asset.mk (Some i) (Some q) (Some v) (Some w)) i w _ eq_refl eq_refl Hl2 Hw).
    done.
Qed.

Lemma X6_witness :
  exists env,
    parse shared_id = Ok env /\
    "A1" ∈ Env.I env /\
    available_quantity env "A1" = qz 7 /\ market_value env "A1" = qz 3 /\
    tier_rating env "A1" = qz 2.
Proof.
  eexists. split; [reflexivity|].
  apply (X6_last_asset_wins shared_id _ [asset_A1 100] [] "A1" (qz 7) (qz 3) (qz 2)
           eq_refl eq_refl).
  intros a Ha. by apply elem_of_nil in Ha.
Defined.

(** X7.  Of several accounts with one id, the one that comes last in the
    input gives the requirement the model uses. *)
Theorem X7_last_account_wins (input_data : Input.t) (env : Env.t)
    (l1 l2 : list Account.t) (j : string) (c : Qc) :
  parse input_data = Ok env ->
  get_list (Input.accounts input_data) = l1 ++ Account.mk (Some j) (Some c) :: l2 ->
  (forall a, a ∈ l2 -> Account.account_id a ≠ Some j) ->
  j ∈ Env.J env /\ requirement env j = c.
Proof.
  intros Hp Has Hl2.
  destruct (parse_Ok_inv_tables _ _ Hp) as (_ & _ & _ & HC).
  destruct (parse_ids _ _ Hp) as [_ HJ].
  rewrite Has in HC, HJ. split.
  - assert (Some j ∈ map Some (Env.J env)) as Hin.
    { rewrite HJ, map_app. apply elem_of_app. right. by left. }
    apply list_elem_of_fmap in Hin as (j' & Hj' & Hin). by inversion Hj'; subst.
  - unfold requirement, dict_get.
    by rewrite (dict_comp_last Account.account_id Account.collateral_requirement
                  _ _ _ _ (Account.mk (Some j) (Some c)) j c _ eq_refl eq_refl Hl2 HC).
Qed.

Lemma X7_witness :
  exists env,
    parse shared_id = Ok env /\ "Acc1" ∈ Env.J env /\ requirement env "Acc1" = qz 9.
Proof.
  eexists. split; [reflexivity|].
  apply (X7_last_account_wins shared_id _ [account_Acc1] [] "Acc1" (qz 9)
           eq_refl eq_refl).
  intros a Ha. by apply elem_of_nil in Ha.
Defined.

(** ** Which [KeyError] comes first *)

Lemma mapM_getitem_raise {A B} (key : string) (f : A -> option B) (l : list A) :
  forallb (fun x => present (f x)) l = false ->
  mapM (fun x => getitem key (f x)) l = Raise (KeyError key).
Proof.
  induction l as [|x l IH]; cbn [forallb mapM]; [discriminate|].
  destruct (f x) as [y|]; cbn; [|reflexivity].
  intros Hl. by rewrite IH.
Qed.

Lemma mapM_getitem_ok {A B} (key : string) (f : A -> option B) (l : list A) :
  forallb (fun x => present (f x)) l = true ->
  exists r, mapM (fun x => getitem key (f x)) l = Ok r.
Proof.
  induction l as [|x l IH]; cbn [forallb mapM]; [eauto|].
  destruct (f x) as [y|]; cbn; [|discriminate].
  intros Hl. destruct (IH Hl) as [r ->]. eauto.
Qed.

Lemma dict_comp_raise {A V} (k1 k2 : string) (f1 : A -> option string)
    (f2 : A -> option V) (l : list A) :
  forallb (fun x => present (f1 x)) l = true ->
  forallb (fun x => present (f2 x)) l = false ->
  dict_comp (fun x => getitem k1 (f1 x)) (fun x => getitem k2 (f2 x)) l
    = Raise (KeyError k2).
Proof.
  unfold dict_comp. generalize (∅ : gmap string V).
  induction l as [|x l IH]; intros d; cbn [forallb foldM]; [discriminate|].
  destruct (f1 x) as [k|]; cbn; [|discriminate].
  destruct (f2 x) as [v|]; cbn; [|reflexivity].
  intros H1 H2. by apply IH.
Qed.

Lemma dict_comp_ok {A V} (k1 k2 : string) (f1 : A -> option string)
    (f2 : A -> option V) (l : list A) :
  forallb (fun x => present (f1 x)) l = true ->
  forallb (fun x => present (f2 x)) l = true ->
  exists d, dict_comp (fun x => getitem k1 (f1 x)) (fun x => getitem k2 (f2 x)) l = Ok d.
Proof.
  unfold dict_comp. generalize (∅ : gmap string V).
  induction l as [|x l IH]; intros d; cbn [forallb foldM]; [eauto|].
  destruct (f1 x) as [k|]; cbn; [|discriminate].
  destruct (f2 x) as [v|]; cbn; [|discriminate].
  intros H1 H2. by apply IH.
Qed.

Lemma haircut_fold_first (l : list HaircutEntry.t) (d : gmap (string * string) Qc) :
  match List.find (fun e => negb (haircut_ok e)) l with
  | Some e => foldM haircut_step d l = Raise (KeyError (haircut_first_missing e))
  | None => exists d', foldM haircut_step d l = Ok d'
  end.
Proof.
  revert d. induction l as [|e l IH]; intros d; cbn [List.find foldM]; [eauto|].
  destruct e as [[i|] [j|] [h|]]; try reflexivity.
  cbn [haircut_ok present andb negb HaircutEntry.asset_id HaircutEntry.account_id
       HaircutEntry.haircut].
  rewrite haircut_step_full, bind_Ok. apply IH.
Qed.

Lemma limit_fold_first (l : list LimitEntry.t) (d : gmap (string * string) Qc) :
  match List.find (fun e => negb (limit_ok e)) l with
  | Some e => foldM limit_step d l = Raise (KeyError (limit_first_missing e))
  | None => exists d', foldM limit_step d l = Ok d'
  end.
Proof.
  revert d. induction l as [|e l IH]; intros d; cbn [List.find foldM]; [eauto|].
  destruct e as [[i|] [j|] [m|]]; try reflexivity.
  cbn [limit_ok present andb negb LimitEntry.asset_id LimitEntry.account_id
       LimitEntry.max_allocation].
  rewrite limit_step_full, bind_Ok. apply IH.
Qed.

Lemma parse_first_KeyError (input_data : Input.t) :
  match first_KeyError input_data with
  | Some k => parse input_data = Raise (KeyError k)
  | None => exists env, parse input_data = Ok env
  end.
Proof.
  unfold first_KeyError, parse.
  set (assets := get_list (Input.assets input_data)).
  set (accounts := get_list (Input.accounts input_data)).
  destruct (forallb (fun a => present (Asset.asset_id a)) assets) eqn:H1; cbn [negb].
  2:{ by rewrite (mapM_getitem_raise "asset_id" Asset.asset_id assets H1). }
  destruct (mapM_getitem_ok "asset_id" Asset.asset_id assets H1) as [I ->].
  rewrite bind_Ok.
  destruct (forallb (fun a => present (Asset.available_quantity a)) assets) eqn:H2;
    cbn [negb].
  2:{ by rewrite (dict_comp_raise "asset_id" "available_quantity" Asset.asset_id
                    Asset.available_quantity assets H1 H2). }
  destruct (dict_comp_ok "asset_id" "available_quantity" Asset.asset_id
              Asset.available_quantity assets H1 H2) as [Q_i ->].
  rewrite bind_Ok.
  destruct (forallb (fun a => present (Asset.market_value a)) assets) eqn:H3;
    cbn [negb].
  2:{ by rewrite (dict_comp_raise "asset_id" "market_value" Asset.asset_id
                    Asset.market_value assets H1 H3). }
  destruct (dict_comp_ok "asset_id" "market_value" Asset.asset_id
              Asset.market_value assets H1 H3) as [V_i ->].
  rewrite bind_Ok.
  destruct (forallb (fun a => present (Asset.tier_rating a)) assets) eqn:H4;
    cbn [negb].
  2:{ by rewrite (dict_comp_raise "asset_id" "tier_rating" Asset.asset_id
                    Asset.tier_rating assets H1 H4). }
  destruct (dict_comp_ok "asset_id" "tier_rating" Asset.asset_id
              Asset.tier_rating assets H1 H4) as [omega_i ->].
  rewrite bind_Ok.
  destruct (forallb (fun a => present (Account.account_id a)) accounts) eqn:H5;
    cbn [negb].
  2:{ by rewrite (mapM_getitem_raise "account_id" Account.account_id accounts H5). }
  destruct (mapM_getitem_ok "account_id" Account.account_id accounts H5) as [J ->].
  rewrite bind_Ok.
  destruct (forallb (fun a => present (Account.collateral_requirement a)) accounts)
    eqn:H6; cbn [negb].
  2:{ by rewrite (dict_comp_raise "account_id" "collateral_requirement"
                    Account.account_id Account.collateral_requirement accounts H5 H6). }
  destruct (dict_comp_ok "account_id" "collateral_requirement" Account.account_id
              Account.collateral_requirement accounts H5 H6) as [C_j ->].
  rewrite bind_Ok.
  pose proof (haircut_fold_first (get_list (Input.haircut_matrix input_data)) ∅) as HH.
  destruct (List.find (fun e => negb (haircut_ok e)) _) as [e|]; [by rewrite HH|].
  destruct HH as [H_ij ->]. rewrite bind_Ok.
  pose proof (limit_fold_first (get_list (Input.limit_matrix input_data)) ∅) as HL.
  destruct (List.find (fun e => negb (limit_ok e)) _) as [e|]; [by rewrite HL|].
  destruct HL as [L_ij ->]. rewrite bind_Ok. eauto.
Qed.

(** X8.  Which [KeyError] [run] raises on an input with missing fields.
    The fields of the assets and of the accounts are read one comprehension
    after the other, so a missing [asset_id] is reported before a missing
    [available_quantity] of an earlier asset, and so on through
    [market_value], [tier_rating], [account_id] and
    [collateral_requirement]; the haircut table and then the limit table
    are read entry by entry.  The error is raised before the model is
    built, whatever the solver; without missing fields the parser
    succeeds. *)
Theorem X8_first_KeyError (input_data : Input.t) :
  match first_KeyError input_data with
  | Some k => forall pulp cbc params, run pulp cbc input_data params = Raise (KeyError k)
  | None => exists env, parse input_data = Ok env
  end.
Proof.
  pose proof (parse_first_KeyError input_data) as H.
  destruct (first_KeyError input_data) as [k|]; [|exact H].
  intros pulp cbc params. by apply run_parse_raise.
Qed.

(** The second asset lacks its id: that is what is reported, although the
    first asset lacks two fields. *)
Example run_several_missing (pulp : PuLP.t) (cbc : Solver)
    (params : option SolverParams) :
  run pulp cbc several_missing params = Raise (KeyError "asset_id").
Proof. reflexivity. Qed.

(** The quantity, missing from the second asset, is reported before the
    value, missing from the first. *)
Example run_two_columns_missing (pulp : PuLP.t) (cbc : Solver)
    (params : option SolverParams) :
  run pulp cbc two_columns_missing params = Raise (KeyError "available_quantity").
Proof. reflexivity. Qed.

(** ** Sparse tables as the model sees them *)

Section SparseTable.
Context {A : Type}.
Variable step : gmap (string * string) Qc -> A -> result (gmap (string * string) Qc).
Variable key : A -> option (string * string).
Variable val : A -> option Qc.
Variable err : A -> exn.
Hypothesis Hstep : forall d e,
  step d e = match key e, val e with
             | Some k, Some v => Ok (<[k := v]> d)
             | _, _ => Raise (err e)
             end.

Lemma same_table_refl (P : string * string -> Prop)
    (r : result (gmap (string * string) Qc)) : same_table P r r.
Proof. destruct r; cbn; done. Qed.

(** Whether the loop raises, and what, does not depend on the table it
    starts from; nor does the value it leaves under a key on which the
    starting tables agree. *)
Lemma table_fold_agree (P : string * string -> Prop) (l : list A)
    (d d' : gmap (string * string) Qc) :
  (forall k, P k -> d' !! k = d !! k) ->
  same_table P (foldM step d' l) (foldM step d l).
Proof.
  revert d d'. induction l as [|e l IH]; intros d d' Hd; cbn [foldM]; [exact Hd|].
  rewrite !Hstep. destruct (key e) as [k|]; [|reflexivity].
  destruct (val e) as [v|]; [|reflexivity].
  rewrite !bind_Ok. apply IH. intros k' Hk'.
  destruct (decide (k = k')) as [->|Hne].
  - by rewrite !lookup_insert_eq.
  - rewrite !lookup_insert_ne by done. by apply Hd.
Qed.

Lemma table_fold_skip (P : string * string -> Prop) (l1 l2 : list A) (e : A)
    (k : string * string) (v : Qc) (d0 : gmap (string * string) Qc) :
  key e = Some k -> val e = Some v -> (forall k', P k' -> k' ≠ k) ->
  same_table P (foldM step d0 (l1 ++ e :: l2)) (foldM step d0 (l1 ++ l2)).
Proof.
  intros Hk Hv HP. rewrite !foldM_app.
  destruct (foldM step d0 l1) as [d1|ex]; [|reflexivity].
  rewrite !bind_Ok. cbn [foldM]. rewrite Hstep, Hk, Hv, bind_Ok.
  apply table_fold_agree. intros k' Hk'. apply lookup_insert_ne.
  intros <-. by apply (HP k).
Qed.

Lemma table_fold_total (l : list A) (d : gmap (string * string) Qc) :
  (forall e, e ∈ l -> is_Some (key e) /\ is_Some (val e)) ->
  exists d', foldM step d l = Ok d'.
Proof.
  revert d. induction l as [|e l IH]; intros d Hl; cbn [foldM]; [eauto|].
  destruct (Hl e) as [[k Hk] [v Hv]]; [by left|].
  rewrite Hstep, Hk, Hv, bind_Ok. apply IH. intros e' He'. apply Hl. by right.
Qed.

(** With pairwise distinct keys the table holds exactly the entries read. *)
Lemma table_fold_lookup (l : list A) (d0 d : gmap (string * string) Qc) :
  NoDup (map key l) ->
  (forall e k, e ∈ l -> key e = Some k -> d0 !! k = None) ->
  foldM step d0 l = Ok d ->
  forall k v,
    d !! k = Some v <->
    d0 !! k = Some v \/ exists e, e ∈ l /\ key e = Some k /\ val e = Some v.
Proof.
  revert d0. induction l as [|e l IH]; intros d0 Hnd Hfresh Hd k v; cbn [foldM] in Hd.
  - inversion Hd; subst. split; [by left|].
    intros [H|(e & He & _)]; [done | by apply elem_of_nil in He].
  - apply bind_Ok_inv in Hd as (d1 & Hs & Hd). rewrite Hstep in Hs.
    destruct (key e) as [k0|] eqn:Hk0; [|discriminate].
    destruct (val e) as [v0|] eqn:Hv0; [|discriminate].
    inversion Hs; subst d1. clear Hs. cbn [map] in Hnd. rewrite Hk0 in Hnd.
    apply list.NoDup_cons in Hnd as [Hnotin Hnd].
    assert (Hfresh' : forall e' k', e' ∈ l -> key e' = Some k' ->
                                    <[k0 := v0]> d0 !! k' = None).
    { intros e' k' He' Hk'. rewrite lookup_insert_ne.
      - apply (Hfresh e'); [by right | done].
      - intros <-. apply Hnotin. rewrite <- Hk'.
        apply list_elem_of_fmap. by exists e'. }
    rewrite (IH _ Hnd Hfresh' Hd). split.
    + intros [H|(e' & He' & Hk' & Hv')].
      * destruct (decide (k0 = k)) as [->|Hne].
        -- rewrite lookup_insert_eq in H. inversion H; subst.
           right. exists e. repeat split; [by left|done..].
        -- rewrite lookup_insert_ne in H by done. by left.
      * right. exists e'. repeat split; [by right|done..].
    + intros [H|(e' & He' & Hk' & Hv')].
      * left. rewrite lookup_insert_ne; [done|]. intros <-.
        rewrite (Hfresh e k0) in H; [done | by left | done].
      * apply elem_of_cons in He' as [->|He'].
        -- left. rewrite Hk0 in Hk'. rewrite Hv0 in Hv'.
           inversion Hk'; inversion Hv'; subst. apply lookup_insert_eq.
        -- right. by exists e'.
Qed.

(** With pairwise distinct keys the order of the entries is immaterial. *)
Lemma table_fold_perm (l l' : list A) :
  l ≡ₚ l' -> NoDup (map key l) ->
  (forall e, e ∈ l -> is_Some (key e) /\ is_Some (val e)) ->
  same_table (fun _ => True) (foldM step ∅ l') (foldM step ∅ l).
Proof.
  intros Hperm Hnd Hok.
  destruct (table_fold_total l ∅ Hok) as [d Hd].
  destruct (table_fold_total l' ∅) as [d' Hd'].
  { intros e He. apply Hok. by rewrite Hperm. }
  rewrite Hd, Hd'. cbn. intros k _.
  assert (Hnd' : NoDup (map key l')) by (by rewrite <- Hperm).
  pose proof (table_fold_lookup l ∅ d Hnd (fun _ _ _ _ => lookup_empty _) Hd) as Hl.
  pose proof (table_fold_lookup l' ∅ d' Hnd' (fun _ _ _ _ => lookup_empty _) Hd') as Hl'.
  assert (forall v, d' !! k = Some v <-> d !! k = Some v) as Hiff.
  { intros v. rewrite Hl, Hl'. setoid_rewrite Hperm. reflexivity. }
  destruct (d' !! k) as [v'|] eqn:E'.
  - symmetry. by apply Hiff.
  - destruct (d !! k) as [v|] eqn:E; [|done].
    assert (None = Some v) by (by apply Hiff). done.
Qed.
End SparseTable.

Lemma haircut_step_spec (d : gmap (string * string) Qc) (e : HaircutEntry.t) :
  haircut_step d e =
  match haircut_key e, HaircutEntry.haircut e with
  | Some k, Some v => Ok (<[k := v]> d)
  | _, _ => Raise (KeyError (haircut_first_missing e))
  end.
Proof. by destruct e as [[i|] [j|] [h|]]. Qed.

Lemma limit_step_spec (d : gmap (string * string) Qc) (e : LimitEntry.t) :
  limit_step d e =
  match limit_key e, LimitEntry.max_allocation e with
  | Some k, Some v => Ok (<[k := v]> d)
  | _, _ => Raise (KeyError (limit_first_missing e))
  end.
Proof. by destruct e as [[i|] [j|] [m|]]. Qed.

(** Two inputs with the same assets and accounts, whose tables read the
    same on the pairs of assets and accounts, give the same problem or the
    same exception. *)
Lemma build_lp_tables_congr (pulp : PuLP.t) (input_data input_data' : Input.t)
    (P : string * string -> Prop) :
  Input.assets input_data' = Input.assets input_data ->
  Input.accounts input_data' = Input.accounts input_data ->
  (forall i j,
     Some i ∈ map Asset.asset_id (get_list (Input.assets input_data)) ->
     Some j ∈ map Account.account_id (get_list (Input.accounts input_data)) ->
     P (i, j)) ->
  same_table P (foldM haircut_step ∅ (get_list (Input.haircut_matrix input_data')))
               (foldM haircut_step ∅ (get_list (Input.haircut_matrix input_data))) ->
  same_table P (foldM limit_step ∅ (get_list (Input.limit_matrix input_data')))
               (foldM limit_step ∅ (get_list (Input.limit_matrix input_data))) ->
  build_lp pulp input_data' = build_lp pulp input_data.
Proof.
  intros Has Hac HP HH HL. unfold build_lp, parse. rewrite Has, Hac.
  destruct (mapM _ (get_list (Input.assets input_data))) as [I|e] eqn:HI;
    [rewrite !bind_Ok | reflexivity].
  destruct (dict_comp _ (fun asset => getitem "available_quantity" _) _)
    as [Q_i|e] eqn:HQ; [rewrite !bind_Ok | reflexivity].
  destruct (dict_comp _ (fun asset => getitem "market_value" _) _)
    as [V_i|e] eqn:HV; [rewrite !bind_Ok | reflexivity].
  destruct (dict_comp _ (fun asset => getitem "tier_rating" _) _)
    as [omega_i|e] eqn:Hw; [rewrite !bind_Ok | reflexivity].
  destruct (mapM _ (get_list (Input.accounts input_data))) as [J|e] eqn:HJ;
    [rewrite !bind_Ok | reflexivity].
  destruct (dict_comp _ _ (get_list (Input.accounts input_data))) as [C_j|e] eqn:HC;
    [rewrite !bind_Ok | reflexivity].
  destruct (foldM haircut_step ∅ (get_list (Input.haircut_matrix input_data')))
    as [H'|e'];
    destruct (foldM haircut_step ∅ (get_list (Input.haircut_matrix input_data)))
    as [H|e]; cbn in HH; try done; [rewrite !bind_Ok | by subst].
  destruct (foldM limit_step ∅ (get_list (Input.limit_matrix input_data')))
    as [L'|e'];
    destruct (foldM limit_step ∅ (get_list (Input.limit_matrix input_data)))
    as [L|e]; cbn in HL; try done; [rewrite !bind_Ok | by subst].
  apply mapM_getitem_Some in HI, HJ.
  assert (HP' : forall i j, i ∈ I -> j ∈ J -> P (i, j)).
  { intros i j Hi Hj. apply HP.
    - rewrite <- HI. apply list_elem_of_fmap. by exists i.
    - rewrite <- HJ. apply list_elem_of_fmap. by exists j. }
  rewrite (build_model_tables_ext pulp I J Q_i V_i omega_i C_j H H' L L');
    [reflexivity| |].
  - intros i j Hi Hj. unfold dict_get. by rewrite HH by (by apply HP').
  - intros i j Hi Hj. by apply HL, HP'.
Qed.

(** X9.  A haircut for a pair that is not an asset of the input paired
    with an account of the input is never read: adding such an entry
    anywhere in the table leaves the problem built, or the exception
    raised, as it was. *)
Theorem X9_stray_haircut_ignored (pulp : PuLP.t) (input_data : Input.t)
    (l1 l2 : list HaircutEntry.t) (i j : string) (h : Qc) :
  get_list (Input.haircut_matrix input_data) = l1 ++ l2 ->
  ~ (Some i ∈ map Asset.asset_id (get_list (Input.assets input_data)) /\
     Some j ∈ map Account.account_id (get_list (Input.accounts input_data))) ->
  build_lp pulp (with_haircut_matrix input_data
                   (l1 ++ HaircutEntry.mk (Some i) (Some j) (Some h) :: l2))
  = build_lp pulp input_data.
Proof.
  intros Hhm Hstray.
  apply (build_lp_tables_congr pulp _ _ (fun k => k ≠ (i, j))); try reflexivity.
  - intros i' j' Hi' Hj' [= -> ->]. by apply Hstray.
  - rewrite Hhm. cbn [with_haircut_matrix Input.haircut_matrix get_list default].
    by apply (table_fold_skip haircut_step haircut_key HaircutEntry.haircut _
                haircut_step_spec _ _ _ _ (i, j) h).
  - apply same_table_refl.
Qed.

Lemma X9_witness :
  get_list (Input.haircut_matrix two_by_two)
    = [HaircutEntry.mk (Some "A1") (Some "Acc1") (Some (Q2Qc (1 # 2)))]
      ++ [HaircutEntry.mk (Some "A2") (Some "Acc2") (Some (Q2Qc (3 # 4)))] /\
  build_lp strict (with_haircut_matrix two_by_two
              ([HaircutEntry.mk (Some "A1") (Some "Acc1") (Some (Q2Qc (1 # 2)))]
               ++ HaircutEntry.mk (Some "A1") (Some "Acc9") (Some (qz 5))
                  :: [HaircutEntry.mk (Some "A2") (Some "Acc2") (Some (Q2Qc (3 # 4)))]))
  = build_lp strict two_by_two.
Proof.
  split; [reflexivity|].
  apply (X9_stray_haircut_ignored strict two_by_two
           [HaircutEntry.mk (Some "A1") (Some "Acc1") (Some (Q2Qc (1 # 2)))]
           [HaircutEntry.mk (Some "A2") (Some "Acc2") (Some (Q2Qc (3 # 4)))]
           "A1" "Acc9" (qz 5) eq_refl).
  intros [_ Hj]. simpl in Hj.
  apply elem_of_cons in Hj as [Hj|Hj]; [discriminate|].
  apply list_elem_of_singleton in Hj. discriminate.
Defined.

(** X10.  A limit for a pair that is not an asset of the input paired with
    an account of the input is never read either. *)
Theorem X10_stray_limit_ignored (pulp : PuLP.t) (input_data : Input.t)
    (l1 l2 : list LimitEntry.t) (i j : string) (m : Qc) :
  get_list (Input.limit_matrix input_data) = l1 ++ l2 ->
  ~ (Some i ∈ map Asset.asset_id (get_list (Input.assets input_data)) /\
     Some j ∈ map Account.account_id (get_list (Input.accounts input_data))) ->
  build_lp pulp (with_limit_matrix input_data
                   (l1 ++ LimitEntry.mk (Some i) (Some j) (Some m) :: l2))
  = build_lp pulp input_data.
Proof.
  intros Hlm Hstray.
  apply (build_lp_tables_congr pulp _ _ (fun k => k ≠ (i, j))); try reflexivity.
  - intros i' j' Hi' Hj' [= -> ->]. by apply Hstray.
  - apply same_table_refl.
  - rewrite Hlm. cbn [with_limit_matrix Input.limit_matrix get_list default].
    by apply (table_fold_skip limit_step limit_key LimitEntry.max_allocation _
                limit_step_spec _ _ _ _ (i, j) m).
Qed.

Lemma X10_witness :
  get_list (Input.limit_matrix capped_A) = [limit_A1_Acc1] ++ [] /\
  build_lp strict (with_limit_matrix capped_A
              ([limit_A1_Acc1] ++ LimitEntry.mk (Some "B7") (Some "Acc1") (Some (qz 1)) :: []))
  = build_lp strict capped_A.
Proof.
  split; [reflexivity|].
  apply (X10_stray_limit_ignored strict capped_A [limit_A1_Acc1] [] "B7" "Acc1" (qz 1)
           eq_refl).
  intros [Hi _]. simpl in Hi. apply list_elem_of_singleton in Hi. discriminate.
Defined.

(** X11.  When the entries of the haircut table all carry their fields and
    no two are for the same pair, their order is immaterial: any
    rearrangement of the table gives the same problem. *)
Theorem X11_haircut_order_immaterial (pulp : PuLP.t) (input_data : Input.t)
    (l' : list HaircutEntry.t) :
  get_list (Input.haircut_matrix input_data) ≡ₚ l' ->
  forallb haircut_ok (get_list (Input.haircut_matrix input_data)) = true ->
  NoDup (map haircut_key (get_list (Input.haircut_matrix input_data))) ->
  build_lp pulp (with_haircut_matrix input_data l') = build_lp pulp input_data.
Proof.
  intros Hperm Hok Hnd.
  apply (build_lp_tables_congr pulp _ _ (fun _ => True)); try done.
  - cbn [with_haircut_matrix Input.haircut_matrix get_list default].
    apply (table_fold_perm haircut_step haircut_key HaircutEntry.haircut _
             haircut_step_spec _ _ Hperm Hnd).
    intros e He. rewrite forallb_forall in Hok.
    specialize (Hok e (proj1 (list_elem_of_In _ _) He)). unfold haircut_ok in Hok.
    by destruct e as [[i|] [j|] [h|]].
  - apply same_table_refl.
Qed.

Lemma X11_witness :
  build_lp strict (with_haircut_matrix two_by_two
              [HaircutEntry.mk (Some "A2") (Some "Acc2") (Some (Q2Qc (3 # 4)));
               HaircutEntry.mk (Some "A1") (Some "Acc1") (Some (Q2Qc (1 # 2)))])
  = build_lp strict two_by_two.
Proof.
  apply (X11_haircut_order_immaterial strict two_by_two).
  - apply perm_swap.
  - reflexivity.
  - simpl. apply list.NoDup_cons. split.
    + intros H. apply list_elem_of_singleton in H. discriminate.
    + apply NoDup_singleton.
Defined.

(** X12.  When the entries of the limit table all carry their fields and
    no two are for the same pair, their order is immaterial: any
    rearrangement of the table gives the same problem. *)
Theorem X12_limit_order_immaterial (pulp : PuLP.t) (input_data : Input.t)
    (l' : list LimitEntry.t) :
  get_list (Input.limit_matrix input_data) ≡ₚ l' ->
  forallb limit_ok (get_list (Input.limit_matrix input_data)) = true ->
  NoDup (map limit_key (get_list (Input.limit_matrix input_data))) ->
  build_lp pulp (with_limit_matrix input_data l') = build_lp pulp input_data.
Proof.
  intros Hperm Hok Hnd.
  apply (build_lp_tables_congr pulp _ _ (fun _ => True)); try done.
  - apply same_table_refl.
  - cbn [with_limit_matrix Input.limit_matrix get_list default].
    apply (table_fold_perm limit_step limit_key LimitEntry.max_allocation _
             limit_step_spec _ _ Hperm Hnd).
    intros e He. rewrite forallb_forall in Hok.
    specialize (Hok e (proj1 (list_elem_of_In _ _) He)). unfold limit_ok in Hok.
    by destruct e as [[i|] [j|] [m|]].
Qed.

Lemma X12_witness :
  build_lp strict (with_limit_matrix two_by_two
              [LimitEntry.mk (Some "A1") (Some "Acc2") (Some (qz 10));
               LimitEntry.mk (Some "A1") (Some "Acc1") (Some (qz 60));
               LimitEntry.mk (Some "A2") (Some "Acc1") (Some (qz 20));
               LimitEntry.mk (Some "A2") (Some "Acc2") (Some (qz 70))])
  = build_lp strict two_by_two.
Proof.
  apply (X12_limit_order_immaterial strict two_by_two).
  - apply perm_swap.
  - reflexivity.
  - apply (bool_decide_unpack _). vm_compute. reflexivity.
Defined.

(** ** The solver and the result *)

Lemma value_from_None (sol : Solution) (e : LpAffineExpression) (s : Qc) :
  value_from sol s e = None <->
  exists t, t ∈ e /\ varValue sol !! index t.1 = None.
Proof.
  revert s. induction e as [|[v x] e IH]; intros s; cbn [value_from].
  - split; [discriminate|]. intros (t & Ht & _). by apply elem_of_nil in Ht.
  - destruct (varValue sol !! index v) as [q|] eqn:Hq.
    + rewrite IH. split.
      * intros (t & Ht & Hn). exists t. split; [by right | done].
      * intros (t & Ht & Hn). apply elem_of_cons in Ht as [->|Ht].
        -- cbn [fst] in Hn. congruence.
        -- by exists t.
    + split; [|done]. intros _. exists (v, x). split; [by left | done].
Qed.

Lemma objective_term_costed (env : Env.t) (ix : string * string) (t : LpVariable * Qc) :
  t ∈ objective_term env ix <->
  costed env ix.1 ix.2 /\
  t = (Qvar ix, (tier_rating env ix.1 * market_value env ix.1 * haircut env ix.1 ix.2)%Qc).
Proof.
  unfold objective_term, costed. destruct (decide _) as [Hz|Hnz].
  - split; [intros Ht; by apply elem_of_nil in Ht | intros [Hc _]; tauto].
  - rewrite list_elem_of_singleton. split; [|by intros [_ ->]].
    intros ->. split; [|reflexivity].
    repeat split; intros Heq; apply Hnz; tauto.
Qed.

Lemma objective_row_nil (env : Env.t) :
  objective_row env = [] <->
  forall i j, i ∈ Env.I env -> j ∈ Env.J env -> ~ costed env i j.
Proof.
  unfold objective_row. split.
  - intros Hnil i j Hi Hj Hc.
    assert (Hin : (Qvar (i, j),
                   (tier_rating env i * market_value env i * haircut env i j)%Qc)
                  ∈ flat_map (objective_term env) (pairs (Env.I env) (Env.J env))).
    { apply elem_of_flat_map. exists (i, j). split; [by apply elem_of_pairs|].
      by apply objective_term_costed. }
    rewrite Hnil in Hin. by apply elem_of_nil in Hin.
  - intros Hall.
    destruct (flat_map (objective_term env) (pairs (Env.I env) (Env.J env)))
      as [|t e] eqn:He; [reflexivity|].
    assert (Hin : t ∈ flat_map (objective_term env) (pairs (Env.I env) (Env.J env)))
      by (rewrite He; left).
    apply elem_of_flat_map in Hin as ([i j] & Hij & Ht).
    apply elem_of_pairs in Hij as [Hi Hj].
    apply objective_term_costed in Ht as [Hc _]. by destruct (Hall i j Hi Hj).
Qed.

(** X14.  On an optimal outcome the allocation matrix has one entry per
    pair, [n * m] entries for [n] assets and [m] accounts.  The cost is
    missing in two cases and no other: no pair has its tier, its value and
    its haircut all different from 0, so that the objective has no term;
    or the entry of a pair that has them so carries no quantity. *)
Theorem X14_matrix_size_and_missing_cost (pulp : PuLP.t) (cbc : Solver)
    (input_data : Input.t) (params : option SolverParams) (env : Env.t)
    (prob : LpProblem) (sol : Solution) :
  parse input_data = Ok env ->
  build_lp pulp input_data = Ok prob ->
  chosen_solver cbc params prob = Ok sol ->
  status sol = LpStatusOptimal ->
  exists out,
    run pulp cbc input_data params = Ok out /\
    length (Output.allocation_matrix out)
      = (length (get_list (Input.assets input_data))
         * length (get_list (Input.accounts input_data)))%nat /\
    (Output.total_collateral_cost out = None <->
     (forall i j, i ∈ Env.I env -> j ∈ Env.J env -> ~ costed env i j) \/
     exists a, a ∈ Output.allocation_matrix out /\
               Allocation.allocation_fraction a = None /\
               costed env (Allocation.asset_id a) (Allocation.account_id a)).
Proof.
  intros Hp Hb Hs Hst.
  eexists. split; [by eapply run_optimal|].
  destruct (build_lp_parse _ _ _ _ Hp Hb) as [_ ->].
  cbn [Output.total_collateral_cost Output.allocation_matrix]. split.
  - destruct (parse_Ok_inv _ _ Hp) as (HI & HJ & _). apply mapM_length in HI, HJ.
    unfold allocation_rows. by rewrite length_map, length_pairs, HI, HJ.
  - cbn [model_of objective]. rewrite <- objective_row_nil.
    unfold value_after_solve, value.
    destruct (objective_row env) as [|t0 e0] eqn:He; [by split; [left|]|].
    rewrite value_from_None, <- He. split.
    + intros (t & Ht & Hn). right.
      apply elem_of_flat_map in Ht as ([i j] & Hij & Ht).
      apply objective_term_costed in Ht as [Hc ->]. cbn [fst snd index Qvar] in *.
      exists (Allocation.mk i j (varValue sol !! (i, j))). split; [|by split].
      unfold allocation_rows. apply list_elem_of_fmap. by exists (i, j).
    + intros [Hnil | (a & Ha & Hn & Hc)]; [by rewrite Hnil in He|].
      unfold allocation_rows in Ha. apply list_elem_of_fmap in Ha as ([i j] & -> & Hij).
      cbn in Hn, Hc.
      exists (Qvar (i, j),
              (tier_rating env i * market_value env i * haircut env i j)%Qc).
      split; [|exact Hn].
      apply elem_of_flat_map. exists (i, j). split; [exact Hij|].
      by apply objective_term_costed.
Qed.

Lemma X14_witness :
  parse two_by_two = Ok two_by_two_env /\
  build_lp strict two_by_two = Ok (model_of two_by_two_env) /\
  exists out,
    run strict fifty two_by_two None = Ok out /\
    length (Output.allocation_matrix out) = 4%nat /\
    (Output.total_collateral_cost out = None <->
     (forall i j, i ∈ Env.I two_by_two_env -> j ∈ Env.J two_by_two_env ->
        ~ costed two_by_two_env i j) \/
     exists a, a ∈ Output.allocation_matrix out /\
               Allocation.allocation_fraction a = None /\
               costed two_by_two_env (Allocation.asset_id a) (Allocation.account_id a)).
Proof.
  split; [reflexivity|]. split; [reflexivity|].
  exact (X14_matrix_size_and_missing_cost strict fifty two_by_two None two_by_two_env
           (model_of two_by_two_env)
           (mkSolution LpStatusOptimal {[ ("A1", "Acc1") := qz 50 ]})
           eq_refl eq_refl eq_refl eq_refl).
Defined.

(** X15.  With no asset or no account the objective has no term, and an
    optimal outcome gives the empty allocation matrix and no cost. *)
Theorem X15_empty_side_has_no_cost (pulp : PuLP.t) (cbc : Solver) (input_data : Input.t)
    (params : option SolverParams) (env : Env.t) (prob : LpProblem) (sol : Solution) :
  parse input_data = Ok env ->
  build_lp pulp input_data = Ok prob ->
  get_list (Input.assets input_data) = [] \/ get_list (Input.accounts input_data) = [] ->
  chosen_solver cbc params prob = Ok sol ->
  status sol = LpStatusOptimal ->
  run pulp cbc input_data params = Ok (Output.mk [] None None).
Proof.
  intros Hp Hb Hempty Hs Hst.
  rewrite (run_optimal _ _ _ _ _ _ _ Hp Hb Hs Hst).
  destruct (build_lp_parse _ _ _ _ Hp Hb) as [_ ->].
  destruct (parse_Ok_inv _ _ Hp) as (HI & HJ & _).
  assert (Hpairs : pairs (Env.I env) (Env.J env) = []).
  { destruct Hempty as [He|He]; rewrite He in *; cbn in *.
    - inversion HI. apply pairs_nil_l.
    - inversion HJ. apply pairs_nil_r. }
  unfold allocation_rows, model_of, objective_row. cbn [objective].
  by rewrite Hpairs.
Qed.

Lemma X15_witness :
  parse no_assets = Ok no_assets_env /\
  build_lp strict no_assets = Ok (model_of no_assets_env) /\
  run strict fifty no_assets None = Ok (Output.mk [] None None).
Proof.
  split; [reflexivity|]. split; [reflexivity|].
  apply (X15_empty_side_has_no_cost strict fifty no_assets None no_assets_env
           (model_of no_assets_env)
           (mkSolution LpStatusOptimal {[ ("A1", "Acc1") := qz 50 ]}));
    try reflexivity.
  left. reflexivity.
Defined.

(** ** What each table can and cannot change *)

(** Inputs with the same assets and accounts are parsed to the same ids
    and the same tables of quantities, values, tiers and requirements. *)
Lemma parse_same_entities (input_data input_data' : Input.t) (env env' : Env.t) :
  Input.assets input_data' = Input.assets input_data ->
  Input.accounts input_data' = Input.accounts input_data ->
  parse input_data = Ok env -> parse input_data' = Ok env' ->
  Env.I env' = Env.I env /\ Env.J env' = Env.J env /\
  Env.Q_i env' = Env.Q_i env /\ Env.V_i env' = Env.V_i env /\
  Env.omega_i env' = Env.omega_i env /\ Env.C_j env' = Env.C_j env.
Proof.
  intros Has Hac Hp Hp'.
  destruct (parse_Ok_inv _ _ Hp) as (HI & HJ & _).
  destruct (parse_Ok_inv _ _ Hp') as (HI' & HJ' & _).
  destruct (parse_Ok_inv_tables _ _ Hp) as (HQ & HV & Hw & HC).
  destruct (parse_Ok_inv_tables _ _ Hp') as (HQ' & HV' & Hw' & HC').
  rewrite Has in HI', HQ', HV', Hw'. rewrite Hac in HJ', HC'.
  repeat split; congruence.
Qed.

(** X16.  The limit table bears on nothing but the right-hand sides of the
    cap constraints: whatever table replaces it, the objective, the
    requirements, the inventories, and the tags and left-hand sides of the
    caps stay as they are. *)
Theorem X16_limits_touch_only_cap_bounds (pulp : PuLP.t) (input_data : Input.t)
    (l : list LimitEntry.t) (prob prob' : LpProblem) :
  build_lp pulp input_data = Ok prob ->
  build_lp pulp (with_limit_matrix input_data l) = Ok prob' ->
  objective prob' = objective prob /\
  List.filter is_collateral_requirement (constraints prob')
    = List.filter is_collateral_requirement (constraints prob) /\
  List.filter is_asset_quantity_limit (constraints prob')
    = List.filter is_asset_quantity_limit (constraints prob) /\
  map (fun c => (cname c, expr c, csense c))
      (List.filter is_allocation_limit (constraints prob'))
    = map (fun c => (cname c, expr c, csense c))
          (List.filter is_allocation_limit (constraints prob)).
Proof.
  intros Hb Hb'.
  destruct (build_lp_Ok_inv _ _ _ Hb) as (env & Hp & _ & -> & _).
  destruct (build_lp_Ok_inv _ _ _ Hb') as (env' & Hp' & _ & -> & _).
  destruct (parse_same_entities input_data (with_limit_matrix input_data l) env env'
              eq_refl eq_refl Hp Hp')
    as (HI & HJ & HQ & HV & Hw & HC).
  assert (HH : Env.H_ij env' = Env.H_ij env).
  { destruct (parse_Ok_inv _ _ Hp) as (_ & _ & H1 & _).
    destruct (parse_Ok_inv _ _ Hp') as (_ & _ & H1' & _).
    cbn [with_limit_matrix Input.haircut_matrix] in H1'.
    rewrite H1 in H1'. by inversion H1'. }
  rewrite !filter_collateral, !filter_inventory, !filter_caps.
  destruct env, env'. cbn in *. subst.
  repeat split. rewrite !map_map. reflexivity.
Qed.

Lemma X16_witness :
  build_lp strict two_by_two = Ok (model_of two_by_two_env) /\
  build_lp strict (with_limit_matrix two_by_two other_limits)
    = Ok (model_of two_by_two_other_env) /\
  objective (model_of two_by_two_other_env) = objective (model_of two_by_two_env) /\
  List.filter is_collateral_requirement (constraints (model_of two_by_two_other_env))
    = List.filter is_collateral_requirement (constraints (model_of two_by_two_env)) /\
  List.filter is_asset_quantity_limit (constraints (model_of two_by_two_other_env))
    = List.filter is_asset_quantity_limit (constraints (model_of two_by_two_env)) /\
  map (fun c => (cname c, expr c, csense c))
      (List.filter is_allocation_limit (constraints (model_of two_by_two_other_env)))
    = map (fun c => (cname c, expr c, csense c))
          (List.filter is_allocation_limit (constraints (model_of two_by_two_env))).
Proof.
  split; [reflexivity|]. split; [reflexivity|].
  exact (X16_limits_touch_only_cap_bounds strict two_by_two other_limits
           (model_of two_by_two_env) (model_of two_by_two_other_env) eq_refl eq_refl).
Defined.

(** X17.  The haircut table bears on nothing but the left-hand sides of
    the requirements and the objective: whatever table replaces it, the
    inventories and the caps stay as they are, and the requirements keep
    their number, their order, their tags, their senses and their
    right-hand sides. *)
Theorem X17_haircuts_touch_only_coefficients (pulp : PuLP.t) (input_data : Input.t)
    (l : list HaircutEntry.t) (prob prob' : LpProblem) :
  build_lp pulp input_data = Ok prob ->
  build_lp pulp (with_haircut_matrix input_data l) = Ok prob' ->
  List.filter is_asset_quantity_limit (constraints prob')
    = List.filter is_asset_quantity_limit (constraints prob) /\
  List.filter is_allocation_limit (constraints prob')
    = List.filter is_allocation_limit (constraints prob) /\
  map (fun c => (cname c, csense c, rhs c))
      (List.filter is_collateral_requirement (constraints prob'))
    = map (fun c => (cname c, csense c, rhs c))
          (List.filter is_collateral_requirement (constraints prob)).
Proof.
  intros Hb Hb'.
  destruct (build_lp_Ok_inv _ _ _ Hb) as (env & Hp & _ & -> & _).
  destruct (build_lp_Ok_inv _ _ _ Hb') as (env' & Hp' & _ & -> & _).
  destruct (parse_same_entities input_data (with_haircut_matrix input_data l) env env'
              eq_refl eq_refl Hp Hp')
    as (HI & HJ & HQ & HV & Hw & HC).
  assert (HL : Env.L_ij env' = Env.L_ij env).
  { destruct (parse_Ok_inv _ _ Hp) as (_ & _ & _ & H1).
    destruct (parse_Ok_inv _ _ Hp') as (_ & _ & _ & H1').
    cbn [with_haircut_matrix Input.limit_matrix] in H1'.
    rewrite H1 in H1'. by inversion H1'. }
  rewrite !filter_collateral, !filter_inventory, !filter_caps.
  destruct env, env'. cbn in *. subst.
  repeat split. rewrite !map_map. reflexivity.
Qed.

Lemma X17_witness :
  build_lp strict two_by_two = Ok (model_of two_by_two_env) /\
  build_lp strict (with_haircut_matrix two_by_two []) = Ok (model_of two_by_two_plain_env) /\
  List.filter is_asset_quantity_limit (constraints (model_of two_by_two_plain_env))
    = List.filter is_asset_quantity_limit (constraints (model_of two_by_two_env)) /\
  List.filter is_allocation_limit (constraints (model_of two_by_two_plain_env))
    = List.filter is_allocation_limit (constraints (model_of two_by_two_env)) /\
  map (fun c => (cname c, csense c, rhs c))
      (List.filter is_collateral_requirement (constraints (model_of two_by_two_plain_env)))
    = map (fun c => (cname c, csense c, rhs c))
          (List.filter is_collateral_requirement
             (constraints (model_of two_by_two_env))).
Proof.
  split; [reflexivity|]. split; [reflexivity|].
  exact (X17_haircuts_touch_only_coefficients strict two_by_two []
           (model_of two_by_two_env) (model_of two_by_two_plain_env) eq_refl eq_refl).
Defined.

(** ** The sign of the cost *)

Lemma value_from_nonneg (sol : Solution) (e : LpAffineExpression) (s c : Qc) :
  (0 <= s)%Qc ->
  (forall t q, t ∈ e -> varValue sol !! index t.1 = Some q -> (0 <= q * t.2)%Qc) ->
  value_from sol s e = Some c ->
  (0 <= c)%Qc.
Proof.
  revert s. induction e as [|[v x] e IH]; intros s Hs Hterm Hv; cbn [value_from] in Hv.
  - by inversion Hv; subst.
  - destruct (varValue sol !! index v) as [q|] eqn:Hq; [|done].
    apply (IH _ (Qcplus_nonneg_nonneg _ _ Hs
                   (Hterm (v, x) q (list_elem_of_here _ _) Hq))).
    + intros t q' Hin. apply Hterm. by right.
    + exact Hv.
Qed.

(** X18.  When the tiers, the values and the haircuts in use are not
    negative and the solver returns no negative quantity, the cost
    returned on an optimal outcome is not negative. *)
Theorem X18_cost_not_negative (pulp : PuLP.t) (cbc : Solver) (input_data : Input.t)
    (params : option SolverParams) (env : Env.t) (prob : LpProblem) (sol : Solution) :
  parse input_data = Ok env ->
  build_lp pulp input_data = Ok prob ->
  chosen_solver cbc params prob = Ok sol ->
  status sol = LpStatusOptimal ->
  (forall i, i ∈ Env.I env ->
     (0 <= tier_rating env i)%Qc /\ (0 <= market_value env i)%Qc) ->
  (forall i j, i ∈ Env.I env -> j ∈ Env.J env -> (0 <= haircut env i j)%Qc) ->
  (forall i j q, i ∈ Env.I env -> j ∈ Env.J env ->
     varValue sol !! (i, j) = Some q -> (0 <= q)%Qc) ->
  exists out,
    run pulp cbc input_data params = Ok out /\
    forall c, Output.total_collateral_cost out = Some c -> (0 <= c)%Qc.
Proof.
  intros Hp Hb Hs Hst Hdata Hhair Hsol.
  eexists. split; [by eapply run_optimal|].
  destruct (build_lp_parse _ _ _ _ Hp Hb) as [_ ->].
  cbn [Output.total_collateral_cost model_of objective]. intros c Hc.
  assert (Hv : value sol (objective_row env) = Some c).
  { unfold value_after_solve in Hc. by destruct (objective_row env). }
  apply (value_from_nonneg sol (objective_row env) 0%Qc c); [done| |exact Hv].
  intros t q Ht Hq. apply elem_of_flat_map in Ht as ([i j] & Hij & Ht).
  apply objective_term_costed in Ht as [_ ->]. cbn [fst snd index Qvar] in *.
  apply elem_of_pairs in Hij as [Hi Hj].
  destruct (Hdata i Hi) as [Hw Hval].
  apply Qcmult_nonneg_nonneg; [by eapply Hsol|].
  apply Qcmult_nonneg_nonneg; [by apply Qcmult_nonneg_nonneg | by apply Hhair].
Qed.

Lemma X18_witness :
  parse capped_A = Ok capped_A_env /\
  build_lp strict capped_A = Ok (model_of capped_A_env) /\
  exists out,
    run strict fifty capped_A None = Ok out /\
    forall c, Output.total_collateral_cost out = Some c -> (0 <= c)%Qc.
Proof.
  split; [reflexivity|]. split; [reflexivity|].
  apply (X18_cost_not_negative strict fifty capped_A None capped_A_env
           (model_of capped_A_env)
           (mkSolution LpStatusOptimal {[ ("A1", "Acc1") := qz 50 ]})
           eq_refl eq_refl eq_refl eq_refl).
  - intros i Hi. simpl in Hi. apply list_elem_of_singleton in Hi. subst i.
    split; discriminate.
  - intros i j Hi Hj. simpl in Hi, Hj.
    apply list_elem_of_singleton in Hi, Hj. subst i j. discriminate.
  - intros i j q Hi Hj. simpl in Hi, Hj.
    apply list_elem_of_singleton in Hi, Hj. subst i j.
    intros Hq. vm_compute in Hq. inversion Hq. discriminate.
Defined.

(** ** When the model is built *)












(** Two assets under one id, or two accounts under one id, stop the
    construction on every PuLP. *)
Example build_lp_shared_id (pulp : PuLP.t) :
  build_lp pulp shared_id
  = Raise (PulpError
             "overlapping constraint names: Collateral_Requirement_Account_Acc1").
Proof. by destruct pulp. Qed.

(** So do two ids that differ only in characters PuLP rewrites. *)
Example build_lp_lookalike (pulp : PuLP.t) :
  build_lp pulp lookalike
  = Raise (PulpError "overlapping constraint names: Asset_Quantity_Limit_Asset_A_1").
Proof. by destruct pulp. Qed.

(** ** The cost and the allocation matrix *)

(** Over exact numbers the value of the objective is the sum recomputed
    from the quantities: a pair the objective has no term for adds 0. *)
Lemma value_recompute (env : Env.t) (sol : Solution) (l : list (string * string))
    (s c : Qc) :
  value_from sol s (flat_map (objective_term env) l) = Some c ->
  (forall ix, ix ∈ l -> is_Some (varValue sol !! ix)) ->
  recompute_from env s (map (fun ix => Allocation.mk ix.1 ix.2 (varValue sol !! ix)) l)
  = Some c.
Proof.
  revert s. induction l as [|[i j] l IH]; intros s Hv Hall;
    cbn [flat_map map recompute_from] in *.
  - exact Hv.
  - destruct (Hall (i, j) (list_elem_of_here _ _)) as [q Hq].
    cbn [Allocation.allocation_fraction Allocation.asset_id Allocation.account_id
         fst snd].
    rewrite Hq. unfold objective_term in Hv. cbn [fst snd] in Hv.
    destruct (decide _) as [Hz|Hnz]; cbn [app value_from] in Hv.
    + assert ((s + tier_rating env i * q * market_value env i * haircut env i j)%Qc = s)
        as ->.
      { destruct Hz as [Hz|[Hz|Hz]]; rewrite Hz; ring. }
      apply IH; [exact Hv|]. intros ix Hix. apply Hall. by right.
    + cbn [index Qvar] in Hv. rewrite Hq in Hv.
      assert ((s + tier_rating env i * q * market_value env i * haircut env i j)%Qc
              = (s + q * (tier_rating env i * market_value env i * haircut env i j))%Qc)
        as -> by ring.
      apply IH; [exact Hv|]. intros ix Hix. apply Hall. by right.
Qed.

(** X21.  On an optimal outcome, a cost that is returned beside an
    allocation matrix whose entries all carry a quantity is, over exact
    numbers, the sum of [tier_rating[i] * Q[i,j] * market_value[i] *
    haircut(i,j)] recomputed from that matrix. *)
Theorem X21_cost_is_recomputed_sum (pulp : PuLP.t) (cbc : Solver) (input_data : Input.t)
    (params : option SolverParams) (env : Env.t) (prob : LpProblem) (sol : Solution) :
  parse input_data = Ok env ->
  build_lp pulp input_data = Ok prob ->
  chosen_solver cbc params prob = Ok sol ->
  status sol = LpStatusOptimal ->
  exists out,
    run pulp cbc input_data params = Ok out /\
    forall c,
      Output.total_collateral_cost out = Some c ->
      (forall a, a ∈ Output.allocation_matrix out ->
                 is_Some (Allocation.allocation_fraction a)) ->
      recompute_cost env (Output.allocation_matrix out) = Some c.
Proof.
  intros Hp Hb Hs Hst.
  eexists. split; [by eapply run_optimal|].
  destruct (build_lp_parse _ _ _ _ Hp Hb) as [_ ->].
  cbn [Output.total_collateral_cost Output.allocation_matrix model_of objective].
  intros c Hc Hall.
  assert (Hv : value sol (objective_row env) = Some c).
  { unfold value_after_solve in Hc. by destruct (objective_row env). }
  apply value_recompute; [exact Hv|].
  intros ix Hix.
  assert (Hin : Allocation.mk ix.1 ix.2 (varValue sol !! ix) ∈ allocation_rows env sol).
  { unfold allocation_rows. apply list_elem_of_fmap. by exists ix. }
  exact (Hall _ Hin).
Qed.

Lemma X21_witness :
  parse capped_A = Ok capped_A_env /\
  build_lp strict capped_A = Ok (model_of capped_A_env) /\
  exists out,
    run strict fifty capped_A None = Ok out /\
    forall c,
      Output.total_collateral_cost out = Some c ->
      (forall a, a ∈ Output.allocation_matrix out ->
                 is_Some (Allocation.allocation_fraction a)) ->
      recompute_cost capped_A_env (Output.allocation_matrix out) = Some c.
Proof.
  split; [reflexivity|]. split; [reflexivity|].
  exact (X21_cost_is_recomputed_sum strict fifty capped_A None capped_A_env
           (model_of capped_A_env)
           (mkSolution LpStatusOptimal {[ ("A1", "Acc1") := qz 50 ]})
           eq_refl eq_refl eq_refl eq_refl).
Defined.

(** On [capped_A] with 50 units allocated the cost is 50, and so is the
    sum recomputed from the matrix. *)
Example run_capped_A :
  run strict fifty capped_A None
    = Ok (Output.mk [Allocation.mk "A1" "Acc1" (Some (qz 50))] (Some (qz 50)) None) /\
  recompute_cost capped_A_env [Allocation.mk "A1" "Acc1" (Some (qz 50))]
    = Some (qz 50).
Proof. split; vm_compute; repeat f_equal; apply Qc_is_canon; reflexivity. Qed.

